(** * The desktop preload bridge (packages/suite-desktop/src/preload/index.ts)

    A shallow embedding of the preload script that publishes the
    [ctxbridge], [menuBridge], [storageBridge] and [desktopBridge] objects
    to the renderer, and the properties of it that the specification
    states.

    The script is single-threaded JavaScript: a piece of code runs to
    completion unless it reaches an [await] on something that is not yet
    settled.  The embedding therefore has three layers:
    - pure helpers (strings, the cookie jar, the listener table of
      [ipcRenderer], plain JavaScript objects);
    - the module state of the script as a record, with the synchronous
      bridge functions as state transformers;
    - the [async] bridge functions as resumable tasks, and an event loop
      that runs them between host replies.

    Logging, the socket channel, the hidden file input and [storageBridge]
    take no part in the properties below and are left out. *)

From Stdlib Require Import Ascii.
From stdpp Require Import base strings list gmap.

Set Default Proof Using "Type".
Set Warnings "-clear-no-such-hyp".

(* ================================================================== *)
(** ** JavaScript values that cross the bridge *)

Inductive JsVal : Type :=
| VUndefined
| VNull
| VBool (b : bool)
| VNum (n : Z)
| VStr (s : string)
| VStrs (l : list string)   (* string[] *)
| VOpaque (n : nat).        (* data the host or a collaborator defines *)

Inductive JsError : Type :=
| TypeError
| HostError (n : nat).      (* the reason a host round trip was rejected with *)

(** [as string]: no conversion happens at run time; a value that is not a
    string reaches [path.join], which validates its arguments. *)
Definition as_string (v : JsVal) : option string :=
  match v with VStr s => Some s | _ => None end.

(** [a ?? b] *)
Definition nullish (a b : JsVal) : JsVal :=
  match a with VUndefined | VNull => b | _ => a end.

(** What the script imports and this file does not define. *)
Class Imports := {
  (* path.join *)
  pathJoin : list string → string;
  (* ../common/rendererArgs: decodeRendererArg(name, argv), undefined as None *)
  decodeRendererArg : string → list string → option (list string);
}.

(* ================================================================== *)
(** ** Strings *)

Module Text.

(** [s.includes(pat)] *)
Fixpoint includes (pat s : string) : bool :=
  String.prefix pat s ||
  match s with
  | EmptyString => false
  | String _ s' => includes pat s'
  end.

(** [s] up to the first [c] and what follows it, if [c] occurs. *)
Fixpoint cut (c : Ascii.ascii) (s : string) : string * option string :=
  match s with
  | EmptyString => (EmptyString, None)
  | String a s' =>
      if decide (a = c) then (EmptyString, Some s')
      else let '(l, r) := cut c s' in (String a l, r)
  end.

(** [s.split(c)] *)
Fixpoint split (c : Ascii.ascii) (s : string) : list string :=
  match s with
  | EmptyString => [EmptyString]
  | String a s' =>
      if decide (a = c) then EmptyString :: split c s'
      else match split c s' with
           | [] => [String a EmptyString]
           | w :: ws => String a w :: ws
           end
  end.

(** [parts.join(sep)] *)
Fixpoint join (sep : string) (parts : list string) : string :=
  match parts with
  | [] => EmptyString
  | [p] => p
  | p :: ps => p +:+ sep +:+ join sep ps
  end.

End Text.

(* ================================================================== *)
(** ** [document.cookie] *)

Module Cookies.

(** The cookies of the page, oldest first. *)
Definition Jar := list (string * string).

Definition render (c : string * string) : string := c.1 +:+ "=" +:+ c.2.

(** Reading [document.cookie]. *)
Definition read (jar : Jar) : string := Text.join "; " (render <$> jar).

Fixpoint lookup (name : string) (jar : Jar) : option string :=
  match jar with
  | [] => None
  | c :: jar' => if decide (c.1 = name) then Some c.2 else lookup name jar'
  end.

Definition delete (name : string) (jar : Jar) : Jar :=
  filter (λ c, c.1 ≠ name) jar.

(** A cookie that exists keeps its place, a new one goes last. *)
Fixpoint put (name value : string) (jar : Jar) : Jar :=
  match jar with
  | [] => [(name, value)]
  | c :: jar' =>
      if decide (c.1 = name) then (name, value) :: jar'
      else c :: put name value jar'
  end.

(** An attribute that makes the cookie expire at once. *)
Definition expires_now (attr : string) : bool :=
  bool_decide (attr = "max-age=0").

(** Assigning [document.cookie = text]: [text] is [name=value] followed by
    attributes, separated by semicolons. *)
Definition assign (text : string) (jar : Jar) : Jar :=
  match Text.split ";"%char text with
  | [] => jar
  | binding :: attrs =>
      let '(name, value) := Text.cut "="%char binding in
      if existsb expires_now attrs then delete name jar
      else put name (default EmptyString value) jar
  end.

End Cookies.

(* ================================================================== *)
(** ** [ipcRenderer] as an event emitter *)

(** The functions registered on [ipcRenderer], compared by reference as
    [off] does: the two arrow functions of [main] that keep the maximized
    flag, and functions handed in by the renderer. *)
Inductive Listener : Type :=
| SetMaximized (b : bool)
| Handler (fn : nat).

#[global] Instance Listener_eq_dec : EqDecision Listener.
Proof. solve_decision. Defined.

Module Emitter.

Definition listeners (eventName : string) (t : gmap string (list Listener))
    : list Listener :=
  default [] (t !! eventName).

(** [emitter.on(eventName, listener)]: appended, never deduplicated. *)
Definition on (eventName : string) (l : Listener)
    (t : gmap string (list Listener)) : gmap string (list Listener) :=
  <[eventName := listeners eventName t ++ [l]]> t.

(** The list without the most recently added instance of [l]. *)
Fixpoint remove_last (l : Listener) (ls : list Listener) : list Listener :=
  match ls with
  | [] => []
  | x :: ls' =>
      if decide (x = l) then
        if decide (l ∈ ls') then x :: remove_last l ls' else ls'
      else x :: remove_last l ls'
  end.

(** [emitter.off(eventName, listener)]: at most one instance goes, the
    most recently added one; nothing happens when there is none. *)
Definition off (eventName : string) (l : Listener)
    (t : gmap string (list Listener)) : gmap string (list Listener) :=
  match t !! eventName with
  | None => t
  | Some ls =>
      if decide (l ∈ ls) then <[eventName := remove_last l ls]> t else t
  end.

End Emitter.

(* ================================================================== *)
(** ** The state of one load of the script *)

(** [handler.list()], [handler.load(id)], [handler.install(foxeFileData)],
    [handler.uninstall(id)] of an [ExtensionsHandler]. *)
Inductive Method : Type :=
| List
| Load (id : string)
| Install (foxeFileData : list Byte.byte)
| Uninstall (id : string).

(** What an [await] of the script waits for. *)
Inductive Request : Type :=
| Invoke (channel : string) (args : list JsVal)  (* ipcRenderer.invoke *)
| OnHandler (h : nat) (m : Method)               (* a method of handler h *)
| Layouts (userLayoutsDir : string).             (* fetchLayouts(dir) *)

(** What the script has asked of the outside, oldest first. *)
Inductive Effect : Type :=
| Sent (channel : string)                        (* ipcRenderer.send *)
| Requested (r : Request).

Record Preload : Type := {
  cookies : Cookies.Jar;                 (* document.cookie *)
  argv : list string;                    (* window.process.argv *)
  reloading : bool;                      (* window.location.reload() called *)
  deepLinks : list string;
  isMaximized : bool;
  extensionHandler : option nat;         (* undefined as None *)
  constructed : list string;             (* every new ExtensionsHandler(dir);
                                            a handler is its index here *)
  ipcRenderer : gmap string (list Listener);
  effects : list Effect;
}.

Definition with_cookies (f : Cookies.Jar → Cookies.Jar) (s : Preload) : Preload :=
  {| cookies := f (cookies s); argv := argv s; reloading := reloading s;
     deepLinks := deepLinks s; isMaximized := isMaximized s;
     extensionHandler := extensionHandler s; constructed := constructed s;
     ipcRenderer := ipcRenderer s; effects := effects s |}.

Definition with_reloading (b : bool) (s : Preload) : Preload :=
  {| cookies := cookies s; argv := argv s; reloading := b;
     deepLinks := deepLinks s; isMaximized := isMaximized s;
     extensionHandler := extensionHandler s; constructed := constructed s;
     ipcRenderer := ipcRenderer s; effects := effects s |}.

Definition with_isMaximized (b : bool) (s : Preload) : Preload :=
  {| cookies := cookies s; argv := argv s; reloading := reloading s;
     deepLinks := deepLinks s; isMaximized := b;
     extensionHandler := extensionHandler s; constructed := constructed s;
     ipcRenderer := ipcRenderer s; effects := effects s |}.

Definition with_extensionHandler (h : option nat) (s : Preload) : Preload :=
  {| cookies := cookies s; argv := argv s; reloading := reloading s;
     deepLinks := deepLinks s; isMaximized := isMaximized s;
     extensionHandler := h; constructed := constructed s;
     ipcRenderer := ipcRenderer s; effects := effects s |}.

Definition with_constructed (dir : string) (s : Preload) : Preload :=
  {| cookies := cookies s; argv := argv s; reloading := reloading s;
     deepLinks := deepLinks s; isMaximized := isMaximized s;
     extensionHandler := extensionHandler s;
     constructed := constructed s ++ [dir];
     ipcRenderer := ipcRenderer s; effects := effects s |}.

Definition with_ipcRenderer
    (f : gmap string (list Listener) → gmap string (list Listener))
    (s : Preload) : Preload :=
  {| cookies := cookies s; argv := argv s; reloading := reloading s;
     deepLinks := deepLinks s; isMaximized := isMaximized s;
     extensionHandler := extensionHandler s; constructed := constructed s;
     ipcRenderer := f (ipcRenderer s); effects := effects s |}.

Definition with_effect (e : Effect) (s : Preload) : Preload :=
  {| cookies := cookies s; argv := argv s; reloading := reloading s;
     deepLinks := deepLinks s; isMaximized := isMaximized s;
     extensionHandler := extensionHandler s; constructed := constructed s;
     ipcRenderer := ipcRenderer s; effects := effects s ++ [e] |}.

(** The name of the sentinel cookie. *)
Definition sentinel : string := "fox.ignoreDeepLinks".

(** [const ignoreDeepLinks = document.cookie.includes(...)] (line 33). *)
Definition ignoreDeepLinks (jar : Cookies.Jar) : bool :=
  Text.includes "fox.ignoreDeepLinks=true" (Cookies.read jar).

(** Calling one listener.  A function of the renderer runs on the other
    side of the bridge: what it does to this script it does through bridge
    calls, which are events of their own. *)
Definition call_listener (l : Listener) (s : Preload) : Preload :=
  match l with
  | SetMaximized b => with_isMaximized b s
  | Handler _ => s
  end.

(** [ipcRenderer.emit(eventName)]: the listeners registered when the event
    arrives, in registration order. *)
Definition emit (eventName : string) (s : Preload) : Preload :=
  foldl (λ s l, call_listener l s) s (Emitter.listeners eventName (ipcRenderer s)).

(** [ipcRenderer.send(channel)] *)
Definition send (channel : string) (s : Preload) : Preload :=
  with_effect (Sent channel) s.

(** The part of [main] that sets up state: lines 102-106. *)
Definition main (s : Preload) : Preload :=
  let s := with_isMaximized false s in
  let s := with_ipcRenderer (Emitter.on "maximize" (SetMaximized true)) s in
  let s := with_ipcRenderer (Emitter.on "unmaximize" (SetMaximized false)) s in
  with_extensionHandler None s.

(** One load of the script in a page whose cookies are [jar]: lines 33-36,
    then [main]. *)
Definition load `{Imports} (jar : Cookies.Jar) (args : list string) : Preload :=
  let ignore := ignoreDeepLinks jar in
  let jar := Cookies.assign "fox.ignoreDeepLinks=;max-age=0;" jar in
  let links :=
    if ignore then [] else default [] (decodeRendererArg "deepLinks" args) in
  main {| cookies := jar; argv := args; reloading := false;
          deepLinks := links; isMaximized := false;
          extensionHandler := None; constructed := [];
          ipcRenderer := ∅; effects := [] |}.

(** The reload that [window.location.reload()] asks for: the script runs
    again from the top; the cookies and the arguments of the process stay. *)
Definition reload `{Imports} (s : Preload) : Preload :=
  load (cookies s) (argv s).

(* ================================================================== *)
(** ** [async] functions *)

(** An [async] function as the code it still has to run.  Between two
    [Await]s it runs without interruption; at an [Await] it gives up
    control until the request is answered.  A rejected request is thrown
    at the [await]; no function of the script catches, so the function's
    own promise rejects with the same reason. *)
Inductive Task (A : Type) : Type :=
| Ret (a : A)                                   (* return a *)
| Throw (e : JsError)
| GetHandler (k : option nat → Task A)          (* read extensionHandler *)
| SetHandler (h : option nat) (k : Task A)      (* extensionHandler = h *)
| Construct (dir : string) (k : nat → Task A)   (* new ExtensionsHandler(dir) *)
| Await (r : Request) (k : JsVal → Task A).     (* await r *)

Arguments Ret {A} a.
Arguments Throw {A} e.
Arguments GetHandler {A} k.
Arguments SetHandler {A} h k.
Arguments Construct {A} dir k.
Arguments Await {A} r k.

(** [const x = await t; f x], for [t] the call of another [async] function. *)
Fixpoint bind {A B : Type} (t : Task A) (f : A → Task B) : Task B :=
  match t with
  | Ret a => f a
  | Throw e => Throw e
  | GetHandler k => GetHandler (λ h, bind (k h) f)
  | SetHandler h k => SetHandler h (bind k f)
  | Construct dir k => Construct dir (λ h, bind (k h) f)
  | Await r k => Await r (λ v, bind (k v) f)
  end.

Inductive Outcome (A : Type) : Type :=
| Resolved (a : A)
| Rejected (e : JsError).

Arguments Resolved {A} a.
Arguments Rejected {A} e.

Inductive Paused (A : Type) : Type :=
| Settled (o : Outcome A)
| Blocked (k : JsVal → Task A).

Arguments Settled {A} o.
Arguments Blocked {A} k.

(** Run a task until it settles or reaches an [await]. *)
Fixpoint run {A : Type} (t : Task A) (s : Preload) : Preload * Paused A :=
  match t with
  | Ret a => (s, Settled (Resolved a))
  | Throw e => (s, Settled (Rejected e))
  | GetHandler k => run (k (extensionHandler s)) s
  | SetHandler h k => run k (with_extensionHandler h s)
  | Construct dir k => run (k (length (constructed s))) (with_constructed dir s)
  | Await r k => (with_effect (Requested r) s, Blocked k)
  end.

(** Lines 111-114: what [getExtensionHandler] does once the home path has
    arrived. *)
Definition after_getHomePath `{Imports} (reply : JsVal) : Task (option nat) :=
  match as_string reply with
  | None => Throw TypeError
  | Some homePath =>
      let userExtensionsDir :=
        pathJoin [homePath; ".lichtblick-suite"; "extensions"] in
      Construct userExtensionsDir (λ h,
        SetHandler (Some h) (GetHandler Ret))
  end.

(** Lines 108-115. *)
Definition getExtensionHandler `{Imports} : Task (option nat) :=
  GetHandler (λ current,
    match current with
    | Some _ => GetHandler Ret
    | None => Await (Invoke "getHomePath" []) after_getHomePath
    end).

(** [await handler.m(...)]: a method call on [undefined] throws. *)
Definition on_handler (handler : option nat) (m : Method) : Task JsVal :=
  match handler with
  | None => Throw TypeError
  | Some h => Await (OnHandler h m) Ret
  end.

(** The members of [desktopBridge], lines 117-195. *)
Inductive Op : Type :=
| AddIpcEventListener (eventName : string) (handler : nat)
| SetRepresentedFilename (path : JsVal)
| UpdateNativeColorScheme
| UpdateLanguage
| GetCLIFlags
| GetDeepLinks
| ResetDeepLinks
| FetchLayouts
| GetExtensions
| LoadExtension (id : string)
| InstallExtension (foxeFileData : list Byte.byte)
| UninstallExtension (id : string)
| HandleTitleBarDoubleClick
| IsMaximized
| MinimizeWindow
| MaximizeWindow
| UnmaximizeWindow
| CloseWindow
| ReloadWindow.

(** The closures that [addIpcEventListener] returns, with the variables
    they capture: line 120 and line 216. *)
Inductive Closure : Type :=
| DesktopOff (eventName : string) (handler : nat)
| MenuOff (eventName : string) (handler : nat).

Definition invoke (c : Closure) (s : Preload) : Preload :=
  match c with
  | DesktopOff eventName handler =>
      with_ipcRenderer (Emitter.off eventName (Handler handler)) s
  | MenuOff eventName handler =>
      with_ipcRenderer (Emitter.off eventName (Handler handler)) s
  end.

(** What a call of a bridge function hands back to the caller. *)
Inductive Returned : Type :=
| Value (v : JsVal)            (* an ordinary function returned v *)
| Detach (c : Closure)         (* an ordinary function returned a closure *)
| Promise (t : Task JsVal).    (* an async function: its body, to be run *)

Definition desktopBridge `{Imports} (op : Op) (s : Preload) : Preload * Returned :=
  match op with
  | AddIpcEventListener eventName handler =>
      (with_ipcRenderer (Emitter.on eventName (Handler handler)) s,
       Detach (DesktopOff eventName handler))
  | SetRepresentedFilename path =>
      (s, Promise (Await (Invoke "setRepresentedFilename" [path])
                     (λ _, Ret VUndefined)))
  | UpdateNativeColorScheme =>
      (s, Promise (Await (Invoke "updateNativeColorScheme" [])
                     (λ _, Ret VUndefined)))
  | UpdateLanguage =>
      (s, Promise (Await (Invoke "updateLanguage" []) (λ _, Ret VUndefined)))
  | GetCLIFlags =>
      (s, Promise (Await (Invoke "getCLIFlags" []) Ret))
  | GetDeepLinks =>
      (s, Value (VStrs (deepLinks s)))
  | ResetDeepLinks =>
      let s := with_cookies (Cookies.assign "fox.ignoreDeepLinks=true;") s in
      (with_reloading true s, Value VUndefined)
  | FetchLayouts =>
      (s, Promise (Await (Invoke "getHomePath" []) (λ reply,
             match as_string reply with
             | None => Throw TypeError
             | Some homePath =>
                 let userLayoutsDir :=
                   pathJoin [homePath; ".lichtblick-suite"; "layouts"] in
                 Await (Layouts userLayoutsDir) Ret
             end)))
  | GetExtensions =>
      (s, Promise (bind getExtensionHandler (λ handler,
                   on_handler handler List)))
  | LoadExtension id =>
      (s, Promise (bind getExtensionHandler (λ handler,
                   on_handler handler (Load id))))
  | InstallExtension foxeFileData =>
      (s, Promise (bind getExtensionHandler (λ handler,
                   on_handler handler (Install foxeFileData))))
  | UninstallExtension id =>
      (s, Promise (bind getExtensionHandler (λ handler,
                   on_handler handler (Uninstall id))))
  | HandleTitleBarDoubleClick => (send "titleBarDoubleClicked" s, Value VUndefined)
  | IsMaximized => (s, Value (VBool (isMaximized s)))
  | MinimizeWindow => (send "minimizeWindow" s, Value VUndefined)
  | MaximizeWindow => (send "maximizeWindow" s, Value VUndefined)
  | UnmaximizeWindow => (send "unmaximizeWindow" s, Value VUndefined)
  | CloseWindow => (send "closeWindow" s, Value VUndefined)
  | ReloadWindow => (send "reloadMainWindow" s, Value VUndefined)
  end.

(** [menuBridge.addIpcEventListener], lines 208-219. *)
Definition menuBridge (eventName : string) (handler : nat) (s : Preload)
    : Preload * Returned :=
  (with_ipcRenderer (Emitter.on eventName (Handler handler)) s,
   Detach (MenuOff eventName handler)).

(* ================================================================== *)
(** ** The event loop *)

(** The script between two events: its state, the [async] calls that are
    suspended at an [await] (by the number of their promise, with the code
    that follows the [await]), and the promises that have settled. *)
Record Loop : Type := {
  mem : Preload;
  waiting : list (nat * (JsVal → Task JsVal));
  settled : list (nat * Outcome JsVal);
  promises : nat;                        (* promises handed out so far *)
}.

Inductive Event : Type :=
| Push (channel : string)                (* the host sends on a channel *)
| Call (op : Op)                         (* desktopBridge.op(...) *)
| MenuCall (eventName : string) (handler : nat)
                                         (* menuBridge.addIpcEventListener *)
| Run (c : Closure)                      (* a returned closure is called *)
| Answer (id : nat) (r : Outcome JsVal). (* what promise id awaits settles *)

(** The suspended call of promise [id], and the others. *)
Fixpoint take (id : nat) (w : list (nat * (JsVal → Task JsVal)))
    : option ((JsVal → Task JsVal) * list (nat * (JsVal → Task JsVal))) :=
  match w with
  | [] => None
  | (i, k) :: w' =>
      if decide (i = id) then Some (k, w')
      else match take id w' with
           | None => None
           | Some (k', rest) => Some (k', (i, k) :: rest)
           end
  end.

(** Record where a task stopped, for promise [id]. *)
Definition park (id : nat) (r : Preload * Paused JsVal)
    (w : list (nat * (JsVal → Task JsVal)))
    (d : list (nat * Outcome JsVal)) (n : nat) : Loop :=
  match r.2 with
  | Settled o =>
      {| mem := r.1; waiting := w; settled := d ++ [(id, o)]; promises := n |}
  | Blocked k =>
      {| mem := r.1; waiting := w ++ [(id, k)]; settled := d; promises := n |}
  end.

(** Calling an [async] function: its body runs up to its first [await]. *)
Definition start (t : Task JsVal) (L : Loop) : Loop :=
  park (promises L) (run t (mem L)) (waiting L) (settled L) (S (promises L)).

(** The request a suspended call waits for settles. *)
Definition resume (id : nat) (r : Outcome JsVal) (L : Loop) : Loop :=
  match take id (waiting L) with
  | None => L
  | Some (k, rest) =>
      match r with
      | Rejected e =>
          {| mem := mem L; waiting := rest;
             settled := settled L ++ [(id, Rejected e)];
             promises := promises L |}
      | Resolved v =>
          park id (run (k v) (mem L)) rest (settled L) (promises L)
      end
  end.

Definition with_mem (s : Preload) (L : Loop) : Loop :=
  {| mem := s; waiting := waiting L; settled := settled L;
     promises := promises L |}.

Definition step `{Imports} (ev : Event) (L : Loop) : Loop :=
  match ev with
  | Push channel => with_mem (emit channel (mem L)) L
  | Call op =>
      let '(s, r) := desktopBridge op (mem L) in
      match r with
      | Promise t => start t (with_mem s L)
      | Value _ | Detach _ => with_mem s L
      end
  | MenuCall eventName handler =>
      with_mem (menuBridge eventName handler (mem L)).1 L
  | Run c => with_mem (invoke c (mem L)) L
  | Answer id r => resume id r L
  end.

Definition exec `{Imports} (evs : list Event) (L : Loop) : Loop :=
  foldl (λ L ev, step ev L) L evs.

(** The loop right after the script has loaded. *)
Definition attach `{Imports} (jar : Cookies.Jar) (args : list string) : Loop :=
  {| mem := load jar args; waiting := []; settled := []; promises := 0 |}.

(** What one event should do to the maximized flag. *)
Definition notified (ev : Event) (b : bool) : bool :=
  match ev with
  | Push channel =>
      if decide (channel = "maximize") then true
      else if decide (channel = "unmaximize") then false
      else b
  | _ => b
  end.

(** The maximized flag that a sequence of events should leave: that of
    the last "maximize" or "unmaximize" the host sent, [false] if none. *)
Definition last_notified (evs : list Event) : bool :=
  foldl (λ b ev, notified ev b) false evs.

(* ================================================================== *)
(** ** [ctx.getNetworkInterfaces] *)

Module Network.

(** A plain object: its own enumerable properties in creation order. *)
Definition Obj := list (string * JsVal).

Fixpoint get (key : string) (o : Obj) : JsVal :=
  match o with
  | [] => VUndefined
  | (k, v) :: o' => if decide (k = key) then v else get key o'
  end.

Definition has (key : string) (o : Obj) : bool :=
  bool_decide (key ∈ o.*1).

(** Defining a property: an existing key keeps its place. *)
Fixpoint define (key : string) (v : JsVal) (o : Obj) : Obj :=
  match o with
  | [] => [(key, v)]
  | (k, w) :: o' =>
      if decide (k = key) then (k, v) :: o' else (k, w) :: define key v o'
  end.

(** [{ ...o, ...src }] *)
Definition spread (src : Obj) (o : Obj) : Obj :=
  foldl (λ o kv, define kv.1 kv.2 o) o src.

Inductive Family : Type :=
| IPv4
| IPv6 (scopeid : Z).

(** [os.NetworkInterfaceInfo]; [cidr] is [string | null]. *)
Record Info : Type := {
  address : string;
  netmask : string;
  family : Family;
  mac : string;
  internal : bool;
  cidr : option string;
}.

(** The entry of [os.networkInterfaces()] as the object it is. *)
Definition props (info : Info) : Obj :=
  [("address", VStr (address info));
   ("netmask", VStr (netmask info));
   ("family", VStr (match family info with IPv4 => "IPv4" | IPv6 _ => "IPv6" end));
   ("mac", VStr (mac info));
   ("internal", VBool (internal info));
   ("cidr", match cidr info with Some c => VStr c | None => VNull end)]
  ++ match family info with IPv4 => [] | IPv6 id => [("scopeid", VNum id)] end.

(** [os.networkInterfaces()]: the keys in enumeration order, a value
    that is [undefined] as [None]. *)
Definition Interfaces := list (string * option (list Info)).

(** [ifaces[name]] *)
Fixpoint at_name (name : string) (ifaces : Interfaces) : option (list Info) :=
  match ifaces with
  | [] => None
  | (n, v) :: ifaces' => if decide (n = name) then v else at_name name ifaces'
  end.

(** [{ name, ...info, cidr: info.cidr ?? undefined }] (line 90) *)
Definition entry (name : string) (info : Info) : Obj :=
  define "cidr" (nullish (get "cidr" (props info)) VUndefined)
    (spread (props info) (define "name" (VStr name) [])).

(** Lines 81-94, over the result of [os.networkInterfaces()]. *)
Definition getNetworkInterfaces (ifaces : Interfaces) : list Obj :=
  foldl (λ output name,
           match at_name name ifaces with
           | None => output
           | Some iface => foldl (λ output info, output ++ [entry name info]) output iface
           end) [] ifaces.*1.

End Network.

(** A stand-in for the imports, to run the definitions on examples. *)
Definition posix : Imports := {|
  pathJoin := Text.join "/";
  decodeRendererArg name args := Some (drop 1 args);
|}.

(** The loop in which the script starts again after a reload. *)
Definition reattach `{Imports} (L : Loop) : Loop :=
  {| mem := reload (mem L); waiting := []; settled := []; promises := 0 |}.

(** What no task touches: all of the state but the handler slot, the
    handlers constructed and the log of effects. *)
Definition page (s : Preload) :=
  (cookies s, argv s, reloading s, deepLinks s, isMaximized s, ipcRenderer s).

(** The flag that calling the listeners [ls] in order leaves. *)
Definition flag_after (ls : list Listener) (b : bool) : bool :=
  foldl (λ b l, match l with SetMaximized b' => b' | Handler _ => b end) b ls.

(** The two listeners that keep the flag sit where [main] put them, and
    nowhere else. *)
Definition wired (t : gmap string (list Listener)) : Prop :=
  ∀ channel b,
    SetMaximized b ∈ Emitter.listeners channel t ↔
    (channel = "maximize" ∧ b = true) ∨ (channel = "unmaximize" ∧ b = false).

(** The two bridges that publish [addIpcEventListener]. *)
Inductive Bridge : Type :=
| Desktop
| Menu.

Definition addIpcEventListener `{Imports} (via : Bridge)
    (eventName : string) (handler : nat) (s : Preload) : Preload * Returned :=
  match via with
  | Desktop => desktopBridge (AddIpcEventListener eventName handler) s
  | Menu => menuBridge eventName handler s
  end.

(** A sequence of attach calls on one event name, each through one of the
    bridges with some function, and what the calls returned. *)
Fixpoint attach_all `{Imports} (eventName : string)
    (calls : list (Bridge * nat)) (s : Preload) : Preload * list Returned :=
  match calls with
  | [] => (s, [])
  | (via, handler) :: calls' =>
      let r := addIpcEventListener via eventName handler s in
      let rs := attach_all eventName calls' r.1 in
      (rs.1, r.2 :: rs.2)
  end.

(** Calling closures one after the other. *)
Definition invoke_all (cs : list Closure) (s : Preload) : Preload :=
  foldl (λ s c, invoke c s) s cs.

(** The function a closure captured. *)
Definition captured (c : Closure) : nat :=
  match c with DesktopOff _ handler | MenuOff _ handler => handler end.

(** The operation of [desktopBridge] that ends in a method of the handler. *)
Definition extensionOp (m : Method) : Op :=
  match m with
  | List => GetExtensions
  | Load id => LoadExtension id
  | Install foxeFileData => InstallExtension foxeFileData
  | Uninstall id => UninstallExtension id
  end.

(** What an extension operation has left to do while it waits for the home
    path. *)
Definition pending_extensionOp `{Imports} (m : Method) : JsVal → Task JsVal :=
  λ reply, bind (after_getHomePath reply) (λ handler, on_handler handler m).

(** Extension operations called one after the other, and then the host
    answering each of them with the home path, in the order of the calls. *)
Definition first_use (ms : list Method) (home : string) : list Event :=
  ((λ m, Call (extensionOp m)) <$> ms) ++
  ((λ id, Answer id (Resolved (VStr home))) <$> seq 0 (length ms)).

(** No suspended call has the number of a promise still to come. *)
Definition numbered (L : Loop) : Prop :=
  ∀ id, id ∈ (waiting L).*1 → id < promises L.

(* ================================================================== *)
(** ** Notions for further properties of the script *)

(** The event name a closure captured. *)
Definition channel_of (c : Closure) : string :=
  match c with DesktopOff eventName _ | MenuOff eventName _ => eventName end.

(** How many times [x] is registered in a listener list. *)
Definition registrations (x : Listener) (ls : list Listener) : nat :=
  length (filter (λ y, y = x) ls).

(** The handler constructed last, if any. *)
Definition last_constructed (s : Preload) : option nat :=
  match length (constructed s) with
  | 0 => None
  | S n => Some n
  end.

(** Tasks that write the handler slot only to store the handler they have
    just constructed. *)
Inductive tidy {A : Type} : Task A → Prop :=
| tidy_Ret (a : A) : tidy (Ret a)
| tidy_Throw (e : JsError) : tidy (Throw e)
| tidy_GetHandler (k : option nat → Task A) :
    (∀ h, tidy (k h)) → tidy (GetHandler k)
| tidy_Construct (dir : string) (k : nat → Task A) :
    (∀ h, tidy (k h)) → tidy (Construct dir (λ h, SetHandler (Some h) (k h)))
| tidy_Await (r : Request) (k : JsVal → Task A) :
    (∀ v, tidy (k v)) → tidy (Await r k).

(** The loop keeps the cached handler in step with the constructed ones. *)
Definition in_step (L : Loop) : Prop :=
  extensionHandler (mem L) = last_constructed (mem L)
  ∧ ∀ id k, (id, k) ∈ waiting L → ∀ v, tidy (k v).

(** Extension operations called one after the other. *)
Definition extension_calls (ms : list Method) : list Event :=
  (λ m, Call (extensionOp m)) <$> ms.

(* ================================================================== *)
(** ** The workspace (packages/suite-base/src/Workspace.tsx)

    The computations of the [WorkspaceContent] component that do not
    depend on rendering: the lists and maps it builds in [useMemo], and the
    two effects that apply the state of the launch URL.  A [Map] is a list
    of bindings in insertion order. *)

(** What the file imports and this file does not define. *)
Class WorkspaceImports := {
  FOXE : string;                  (* AllowedFileExtensions.FOXE *)
  JSON : string;                  (* AllowedFileExtensions.JSON *)
  SidebarItemKeys : list string;
  ICONS : list string;            (* Object.keys(ICONS) *)
}.

Module Workspace.

(** [map.set(key, value)]: a key that exists keeps its place. *)
Fixpoint set {V : Type} (key : string) (value : V) (m : list (string * V))
    : list (string * V) :=
  match m with
  | [] => [(key, value)]
  | (k, v) :: m' =>
      if decide (k = key) then (k, value) :: m' else (k, v) :: set key value m'
  end.

(** [map.get(key)] *)
Fixpoint get {V : Type} (key : string) (m : list (string * V)) : option V :=
  match m with
  | [] => None
  | (k, v) :: m' => if decide (k = key) then Some v else get key m'
  end.

(** A data source factory, as far as the component looks at it. *)
Record DataSource : Type := {
  source_type : string;                        (* source.type *)
  supportedFileTypes : option (list string);
}.

(** Lines 176-184. *)
Definition allowedDropExtensions `{WorkspaceImports}
    (availableSources : list DataSource) : list string :=
  foldl (λ extensions source,
           if decide (source_type source = "file") then
             match supportedFileTypes source with
             | Some types => extensions ++ types
             | None => extensions
             end
           else extensions)
        [FOXE; JSON] availableSources.

(** The components that sidebar items name. *)
Inductive Component : Type :=
| DataSourceSidebarItem
| LayoutBrowser
| AddPanel
| PanelSettings
| VariablesList
| ExtensionsSidebar
| StudioLogsSettingsSidebar
| AccountSettings
| Provided (n : nat).           (* a component that the app hands in *)

Record SidebarItem : Type := {
  iconName : option string;
  title : string;
  component : option Component;
  badge : option nat;             (* badge: { count } *)
}.

(** Lines 101-109. *)
Definition isInjectedSidebarItem `{WorkspaceImports}
    (item : string * SidebarItem) : bool :=
  bool_decide (item.1 ∈ SidebarItemKeys)
  && match iconName item.2 with
     | None => false
     | Some icon => bool_decide (icon ∈ ICONS)
     end.

(** What [useMemo] of lines 282-366 depends on. *)
Record SidebarInputs : Type := {
  playerAlerts : option (list nat);
  enableNewTopNav : bool;
  enableStudioLogsSidebar : bool;
  AppContextLayoutBrowser : option Component;
  supportsAccountSettings : bool;
  currentUser : option string;                 (* currentUser.email *)
  appContextSidebarItems : option (list (string * SidebarItem));
}.

(** Lines 283-331. *)
Definition topItems (i : SidebarInputs) : list (string * SidebarItem) :=
  let topItems :=
    [("connection",
      {| iconName := Some "DatabaseSettings"; title := "Data source";
         component := Some DataSourceSidebarItem;
         badge := match playerAlerts i with
                  | Some alerts =>
                      if decide (0 < length alerts) then Some (length alerts)
                      else None
                  | None => None
                  end |})] in
  let topItems :=
    if enableNewTopNav i then topItems
    else
      set "add-panel"
        {| iconName := Some "RectangularClipping"; title := "Add panel";
           component := Some AddPanel; badge := None |}
        (set "layouts"
           {| iconName := Some "FiveTileGrid"; title := "Layouts";
              component :=
                Some (default LayoutBrowser (AppContextLayoutBrowser i));
              badge := None |}
           topItems) in
  let topItems :=
    set "panel-settings"
      {| iconName := Some "PanelSettings"; title := "Panel settings";
         component := Some PanelSettings; badge := None |}
      topItems in
  let topItems :=
    if enableNewTopNav i then topItems
    else
      set "extensions"
        {| iconName := Some "AddIn"; title := "Extensions";
           component := Some ExtensionsSidebar; badge := None |}
        (set "variables"
           {| iconName := Some "Variable2"; title := "Variables";
              component := Some VariablesList; badge := None |}
           topItems) in
  if enableStudioLogsSidebar i then
    set "logs-settings"
      {| iconName := Some "BacklogList"; title := "Studio logs settings";
         component := Some StudioLogsSettingsSidebar; badge := None |}
      topItems
  else topItems.

(** The item that line 350 binds to "app-settings". *)
Definition appSettings : SidebarItem :=
  {| iconName := Some "Settings"; title := "Settings"; component := None;
     badge := None |}.

(** Lines 337-341. *)
Definition account (i : SidebarInputs) : SidebarItem :=
  {| iconName :=
       Some (match currentUser i with
             | Some _ => "BlockheadFilled"
             | None => "Blockhead"
             end);
     title :=
       match currentUser i with
       | Some email => "Signed in as " +:+ email
       | None => "Account"
       end;
     component := Some AccountSettings; badge := None |}.

(** Lines 333-354. *)
Definition bottomItems `{WorkspaceImports} (i : SidebarInputs)
    : list (string * SidebarItem) :=
  let bottomItems := [] in
  if enableNewTopNav i then bottomItems
  else
    let bottomItems :=
      if supportsAccountSettings i then set "account" (account i) bottomItems
      else bottomItems in
    let bottomItems :=
      foldl (λ bottomItems item,
               if isInjectedSidebarItem item then set item.1 item.2 bottomItems
               else bottomItems)
            bottomItems (default [] (appContextSidebarItems i)) in
    set "app-settings" appSettings bottomItems.

(** A time of the player: seconds and nanoseconds. *)
Record Time : Type := { sec : nat; nsec : nat }.

(** What [parseAppURLState] gives, as far as the component reads it. *)
Record AppURLState : Type := {
  ds : option string;
  dsParams : option (gmap string string);
  time : option Time;
}.

(** [playerState.presence], as far as the component tells the values
    apart. *)
Inductive PlayerPresence : Type :=
| NOT_PRESENT
| INITIALIZING
| PRESENT
| OtherPresence (n : nat).

#[global] Instance PlayerPresence_eq_dec : EqDecision PlayerPresence.
Proof. solve_decision. Defined.

(** The calls the two effects make. *)
Inductive Applied : Type :=
| SelectSource (sourceId : string) (params : option (gmap string string))
| SelectEvent (eventId : option string)
| Seek (t : Time).

(** The state [unappliedSourceArgs]: [undefined] as [None]. *)
Definition SourceArgs : Type := option (option string * option (gmap string string)).

(** Lines 490-492: the initial state. *)
Definition initialSourceArgs (targetUrlState : option AppURLState) : SourceArgs :=
  match targetUrlState with
  | Some u => Some (ds u, dsParams u)
  | None => None
  end.

(** Lines 496-511: one run of the effect, the state it sets and the calls
    it makes.  A string is truthy when it is not empty. *)
Definition loadSourceFromUrl (unappliedSourceArgs : SourceArgs)
    : SourceArgs * list Applied :=
  match unappliedSourceArgs with
  | None => (unappliedSourceArgs, [])
  | Some (sourceId, params) =>
      match sourceId with
      | Some id =>
          if decide (id = "") then (unappliedSourceArgs, [])
          else (Some (None, None),
                [SelectSource id params;
                 SelectEvent (params ≫= λ p, p !! "eventId")])
      | None => (unappliedSourceArgs, [])
      end
  end.

(** The state [unappliedTime]: [undefined] as [None]. *)
Definition UnappliedTime : Type := option (option Time).

(** Lines 513-515: the initial state. *)
Definition initialTime (targetUrlState : option AppURLState) : UnappliedTime :=
  match targetUrlState with
  | Some u => Some (time u)
  | None => None
  end.

(** Lines 517-530: one run of the effect with the presence of the player and
    whether the player can seek. *)
Definition seekToUrlTime (playerPresence : PlayerPresence) (seek : bool)
    (unappliedTime : UnappliedTime) : UnappliedTime * list Applied :=
  match unappliedTime with
  | Some (Some t) =>
      if negb seek then (unappliedTime, [])
      else if decide (playerPresence ≠ PRESENT) then (unappliedTime, [])
      else (Some None, [Seek t])
  | _ => (unappliedTime, [])
  end.

(** The effects run again and again, each run from the state the run before
    set: the calls they make in all. *)
Fixpoint loadSourceFromUrl_runs (n : nat) (unappliedSourceArgs : SourceArgs)
    : list Applied :=
  match n with
  | 0 => []
  | S n' =>
      let r := loadSourceFromUrl unappliedSourceArgs in
      r.2 ++ loadSourceFromUrl_runs n' r.1
  end.

Fixpoint seekToUrlTime_runs (renders : list (PlayerPresence * bool))
    (unappliedTime : UnappliedTime) : list Applied :=
  match renders with
  | [] => []
  | (playerPresence, seek) :: renders' =>
      let r := seekToUrlTime playerPresence seek unappliedTime in
      r.2 ++ seekToUrlTime_runs renders' r.1
  end.

(** A render at which the player is present and can seek. *)
Definition ready (render : PlayerPresence * bool) : bool :=
  bool_decide (render.1 = PRESENT) && render.2.

End Workspace.

(** A stand-in for the imports of the workspace, for examples. *)
Definition sample : WorkspaceImports := {|
  FOXE := ".foxe";
  JSON := ".json";
  SidebarItemKeys := ["account"; "app-settings"; "help"; "studio-logs"];
  ICONS := ["Settings"; "QuestionCircle"; "Blockhead"];
|}.

(* ================================================================== *)
(** * Properties *)

(** ** Strings and cookies *)

Lemma append_cons (x : ascii) (a b : string) :
  String x a +:+ b = String x (a +:+ b).
Proof. reflexivity. Qed.

Lemma append_nil_l (a : string) : "" +:+ a = a.
Proof. reflexivity. Qed.

Lemma append_assoc (a b c : string) : (a +:+ b) +:+ c = a +:+ (b +:+ c).
Proof.
  induction a as [|x a IH]; [done|]. by rewrite !append_cons, IH.
Qed.

Lemma append_nil_r (a : string) : a +:+ "" = a.
Proof. induction a as [|x a IH]; [done|]. by rewrite append_cons, IH. Qed.

Lemma prefix_append (p s : string) : String.prefix p (p +:+ s) = true.
Proof.
  induction p as [|x p IH].
  - by destruct s.
  - rewrite append_cons. simpl.
    destruct (Ascii.ascii_dec x x); [apply IH | done].
Qed.

Lemma includes_prefix (p s : string) :
  String.prefix p s = true → Text.includes p s = true.
Proof. intros Hp. destruct s; cbn [Text.includes]; by rewrite Hp. Qed.

Lemma includes_middle (p a b : string) :
  Text.includes p (a +:+ (p +:+ b)) = true.
Proof.
  induction a as [|x a IH].
  - rewrite append_nil_l. apply includes_prefix, prefix_append.
  - rewrite append_cons. cbn [Text.includes]. rewrite IH. apply orb_true_r.
Qed.

Lemma read_cons (c : string * string) (jar : Cookies.Jar) :
  Cookies.read (c :: jar) =
  match jar with
  | [] => Cookies.render c
  | _ => Cookies.render c +:+ "; " +:+ Cookies.read jar
  end.
Proof. by destruct jar. Qed.

(** A cookie of the jar shows in [document.cookie] as [name=value]. *)
Lemma read_shows (c : string * string) (jar : Cookies.Jar) :
  c ∈ jar → ∃ a b, Cookies.read jar = a +:+ (Cookies.render c +:+ b).
Proof.
  induction jar as [|c0 jar IH]; intros Hin; [by apply elem_of_nil in Hin|].
  rewrite read_cons. apply elem_of_cons in Hin as [->|Hin].
  - destruct jar.
    + exists "", "". by rewrite append_nil_l, append_nil_r.
    + exists "". eexists. by rewrite append_nil_l.
  - destruct jar as [|c1 jar]; [by apply elem_of_nil in Hin|].
    destruct (IH Hin) as (a & b & ->).
    exists (Cookies.render c0 +:+ "; " +:+ a), b.
    by rewrite !append_assoc.
Qed.

Lemma lookup_elem_of (name value : string) (jar : Cookies.Jar) :
  Cookies.lookup name jar = Some value → (name, value) ∈ jar.
Proof.
  induction jar as [|[n v] jar IH]; simpl; [done|].
  case_decide; simpl in *.
  - intros [= <-]. subst. by left.
  - intros Hl. right. by apply IH.
Qed.

Lemma lookup_put (name value : string) (jar : Cookies.Jar) :
  Cookies.lookup name (Cookies.put name value jar) = Some value.
Proof.
  induction jar as [|[n v] jar IH]; simpl.
  - by rewrite decide_True.
  - case_decide; simpl in *; [by rewrite decide_True|].
    by rewrite decide_False.
Qed.

Lemma lookup_delete (name : string) (jar : Cookies.Jar) :
  Cookies.lookup name (Cookies.delete name jar) = None.
Proof.
  induction jar as [|[n v] jar IH]; [done|].
  unfold Cookies.delete in *. cbn.
  destruct (decide (n ≠ name)); simpl; [by rewrite decide_False | done].
Qed.

(** The two assignments of the script, parsed. *)
Lemma assign_clear (jar : Cookies.Jar) :
  Cookies.assign "fox.ignoreDeepLinks=;max-age=0;" jar = Cookies.delete sentinel jar.
Proof. reflexivity. Qed.

Lemma assign_set (jar : Cookies.Jar) :
  Cookies.assign "fox.ignoreDeepLinks=true;" jar = Cookies.put sentinel "true" jar.
Proof. reflexivity. Qed.

(** The script takes the sentinel cookie for set when it is. *)
Lemma ignoreDeepLinks_sentinel (jar : Cookies.Jar) :
  Cookies.lookup sentinel jar = Some "true" → ignoreDeepLinks jar = true.
Proof.
  intros Hl. apply lookup_elem_of, read_shows in Hl as (a & b & Hr).
  unfold ignoreDeepLinks. rewrite Hr. apply includes_middle.
Qed.

(** ** What the steps leave alone *)

Lemma run_page {A : Type} (t : Task A) (s : Preload) :
  page (run t s).1 = page s.
Proof.
  revert s. induction t as [a|e|k IH|h k IH|dir k IH|r k IH]; intros s; simpl;
    try done; by rewrite IH.
Qed.

Lemma park_mem (id : nat) (r : Preload * Paused JsVal) w d n :
  mem (park id r w d n) = r.1.
Proof. unfold park. by destruct r.2. Qed.

Lemma start_page (t : Task JsVal) (L : Loop) :
  page (mem (start t L)) = page (mem L).
Proof. unfold start. rewrite park_mem. apply run_page. Qed.

Lemma resume_page (id : nat) (r : Outcome JsVal) (L : Loop) :
  page (mem (resume id r L)) = page (mem L).
Proof.
  unfold resume. destruct (take id (waiting L)) as [[k rest]|]; [|done].
  destruct r; [|done]. rewrite park_mem. apply run_page.
Qed.

Lemma with_isMaximized_same (s : Preload) :
  with_isMaximized (isMaximized s) s = s.
Proof. by destruct s. Qed.

Lemma calls_flag (ls : list Listener) (s : Preload) :
  foldl (λ s l, call_listener l s) s ls =
  with_isMaximized (flag_after ls (isMaximized s)) s.
Proof.
  revert s. induction ls as [|l ls IH]; intros s; simpl.
  - by rewrite with_isMaximized_same.
  - rewrite IH. by destruct l.
Qed.

Lemma emit_flag (eventName : string) (s : Preload) :
  emit eventName s =
  with_isMaximized
    (flag_after (Emitter.listeners eventName (ipcRenderer s)) (isMaximized s)) s.
Proof. apply calls_flag. Qed.

(** Only [resetDeepLinks] writes a cookie, and it writes the sentinel. *)
Lemma step_cookies `{Imports} (ev : Event) (L : Loop) :
  cookies (mem (step ev L)) =
  match ev with
  | Call ResetDeepLinks => Cookies.put sentinel "true" (cookies (mem L))
  | _ => cookies (mem L)
  end.
Proof.
  destruct ev as [channel|op|eventName handler|c|id r]; simpl.
  - by rewrite emit_flag.
  - destruct op; simpl; try done;
      match goal with
      | |- context [start ?t ?L] =>
          pose proof (start_page t L) as Hp; unfold page in Hp; simpl in Hp;
          by injection Hp
      end.
  - done.
  - by destruct c.
  - pose proof (resume_page id r L) as Hp. unfold page in Hp. by injection Hp.
Qed.

Lemma step_argv `{Imports} (ev : Event) (L : Loop) :
  argv (mem (step ev L)) = argv (mem L).
Proof.
  destruct ev as [channel|op|eventName handler|c|id r]; simpl.
  - by rewrite emit_flag.
  - destruct op; simpl; try done;
      match goal with
      | |- context [start ?t ?L] =>
          pose proof (start_page t L) as Hp; unfold page in Hp; simpl in Hp;
          by injection Hp
      end.
  - done.
  - by destruct c.
  - pose proof (resume_page id r L) as Hp. unfold page in Hp. by injection Hp.
Qed.

Lemma step_deepLinks `{Imports} (ev : Event) (L : Loop) :
  deepLinks (mem (step ev L)) = deepLinks (mem L).
Proof.
  destruct ev as [channel|op|eventName handler|c|id r]; simpl.
  - by rewrite emit_flag.
  - destruct op; simpl; try done;
      match goal with
      | |- context [start ?t ?L] =>
          pose proof (start_page t L) as Hp; unfold page in Hp; simpl in Hp;
          by injection Hp
      end.
  - done.
  - by destruct c.
  - pose proof (resume_page id r L) as Hp. unfold page in Hp. by injection Hp.
Qed.

Lemma exec_snoc `{Imports} (evs : list Event) (ev : Event) (L : Loop) :
  exec (evs ++ [ev]) L = step ev (exec evs L).
Proof. unfold exec. by rewrite foldl_snoc. Qed.

Lemma exec_deepLinks `{Imports} (evs : list Event) (L : Loop) :
  deepLinks (mem (exec evs L)) = deepLinks (mem L).
Proof.
  induction evs as [|ev evs IH] using rev_ind; [done|].
  by rewrite exec_snoc, step_deepLinks.
Qed.

Lemma exec_argv `{Imports} (evs : list Event) (L : Loop) :
  argv (mem (exec evs L)) = argv (mem L).
Proof.
  induction evs as [|ev evs IH] using rev_ind; [done|].
  by rewrite exec_snoc, step_argv.
Qed.

(** Once set, the sentinel cookie stays until the script loads again. *)
Lemma exec_sentinel `{Imports} (evs : list Event) (L : Loop) :
  Cookies.lookup sentinel (cookies (mem L)) = Some "true" →
  Cookies.lookup sentinel (cookies (mem (exec evs L))) = Some "true".
Proof.
  intros Hs. induction evs as [|ev evs IH] using rev_ind; [done|].
  rewrite exec_snoc, step_cookies.
  destruct ev as [| [] | | |]; try done. apply lookup_put.
Qed.

(** ** Deep links *)

(** What [getDeepLinks()] returns, in terms of the test the script makes:
    after the script has loaded, whatever events follow in that load, it is
    the list decoded from the launch arguments if the text of the sentinel
    was not in [document.cookie] when the script loaded, and the empty list
    if it was; and after loading there is no cookie of the sentinel's name.
    The text is not there in a page without cookies, and is there once the
    sentinel cookie has been set. *)
Theorem getDeepLinks_fixed_at_attach `{Imports}
    (jar : Cookies.Jar) (args : list string) (evs : list Event) :
  (desktopBridge GetDeepLinks (mem (exec evs (attach jar args)))).2 =
    Value (VStrs (if ignoreDeepLinks jar then []
                  else default [] (decodeRendererArg "deepLinks" args)))
  ∧ Cookies.lookup sentinel (cookies (mem (attach jar args))) = None
  ∧ ignoreDeepLinks [] = false
  ∧ ignoreDeepLinks (Cookies.put sentinel "true" jar) = true.
Proof.
  split_and!.
  - simpl. by rewrite exec_deepLinks.
  - simpl. rewrite assign_clear. apply lookup_delete.
  - done.
  - apply ignoreDeepLinks_sentinel, lookup_put.
Qed.

Lemma delete_absent (name : string) (jar : Cookies.Jar) :
  Cookies.lookup name jar = None → Cookies.delete name jar = jar.
Proof.
  unfold Cookies.delete. induction jar as [|[n v] jar IH]; [done|]. simpl.
  case_decide as Hn; [done|]. intros Hl. cbn.
  destruct (decide (n ≠ name)); [|done]. f_equal. by apply IH.
Qed.

(** Where the cookies other than the sentinel do not show its text, the
    script tells by the text whether the sentinel cookie is set: without the
    cookie the links of the launch arguments are returned, with it none are,
    and after the load the text is gone. *)
Lemma getDeepLinks_by_sentinel_cookie `{Imports}
    (jar : Cookies.Jar) (args : list string) :
  ignoreDeepLinks (Cookies.delete sentinel jar) = false →
  (Cookies.lookup sentinel jar = None →
   deepLinks (load jar args) = default [] (decodeRendererArg "deepLinks" args))
  ∧ (Cookies.lookup sentinel jar = Some "true" →
     deepLinks (load jar args) = [])
  ∧ ignoreDeepLinks (cookies (load jar args)) = false.
Proof.
  intros Hclean. split_and!.
  - intros Hnone. simpl. rewrite delete_absent in Hclean by done.
    by rewrite Hclean.
  - intros Hset. simpl. by rewrite (ignoreDeepLinks_sentinel _ Hset).
  - simpl. by rewrite assign_clear.
Qed.

(** C4, on the code.  A page with one cookie, named [other], whose value
    ends in the text of the sentinel.  There is no sentinel cookie, but the
    script looks for the text anywhere in [document.cookie] and finds it:
    [getDeepLinks()] returns no links, whatever the launch arguments and
    whatever events follow.  The script deletes only the cookie of the
    sentinel's name, so the cookies stay as they are, the text is still
    found after the load, and the next load returns no links either. *)
Theorem foreign_cookie_suppresses_links `{Imports}
    (args : list string) (evs : list Event) :
  let jar := [("other", "xfox.ignoreDeepLinks=true")] in
  let L := exec evs (attach jar args) in
  Cookies.lookup sentinel jar = None
  ∧ Cookies.read jar = "other=xfox.ignoreDeepLinks=true"
  ∧ (desktopBridge GetDeepLinks (mem L)).2 = Value (VStrs [])
  ∧ cookies (mem (attach jar args)) = jar
  ∧ ignoreDeepLinks (cookies (mem (attach jar args))) = true
  ∧ deepLinks (reload (mem (attach jar args))) = [].
Proof.
  intros jar L. split_and!; try done.
  subst L. simpl. by rewrite exec_deepLinks.
Qed.

(** C5.  [resetDeepLinks()] sets the sentinel cookie and asks for a reload;
    whatever happens before the page goes away, the script that loads next,
    with the launch arguments it had before, finds the sentinel, clears it,
    and its [getDeepLinks()] returns the empty list, for as long as that load
    lasts. *)
Theorem resetDeepLinks_then_reload `{Imports}
    (L : Loop) (before after : list Event) :
  let L1 := step (Call ResetDeepLinks) L in
  let L2 := reattach (exec before L1) in
  Cookies.lookup sentinel (cookies (mem L1)) = Some "true"
  ∧ reloading (mem L1) = true
  ∧ argv (mem L2) = argv (mem L)
  ∧ (desktopBridge GetDeepLinks (mem (exec after L2))).2 = Value (VStrs [])
  ∧ Cookies.lookup sentinel (cookies (mem L2)) = None.
Proof.
  intros L1 L2.
  assert (Hset : Cookies.lookup sentinel (cookies (mem L1)) = Some "true").
  { subst L1. rewrite step_cookies. apply lookup_put. }
  split_and!; [done | done | | |].
  - subst L2 L1. simpl. by rewrite exec_argv.
  - simpl. rewrite exec_deepLinks. simpl.
    by rewrite (ignoreDeepLinks_sentinel _ (exec_sentinel before L1 Hset)).
  - simpl. rewrite assign_clear. apply lookup_delete.
Qed.

(** ** The listener table *)

Lemma listeners_on (e e' : string) (l : Listener) (t : gmap string (list Listener)) :
  Emitter.listeners e' (Emitter.on e l t) =
  if decide (e = e') then Emitter.listeners e t ++ [l] else Emitter.listeners e' t.
Proof.
  unfold Emitter.on, Emitter.listeners at 1. case_decide as He.
  - subst. by rewrite lookup_insert_eq.
  - by rewrite lookup_insert_ne.
Qed.

Lemma remove_last_absent (l : Listener) (ls : list Listener) :
  l ∉ ls → Emitter.remove_last l ls = ls.
Proof.
  induction ls as [|x ls IH]; [done|]. intros Hn.
  apply not_elem_of_cons in Hn as [Hx Hn]. simpl.
  rewrite decide_False by done. by rewrite IH.
Qed.

Lemma listeners_off (e e' : string) (l : Listener) (t : gmap string (list Listener)) :
  Emitter.listeners e' (Emitter.off e l t) =
  if decide (e = e') then Emitter.remove_last l (Emitter.listeners e t)
  else Emitter.listeners e' t.
Proof.
  unfold Emitter.off, Emitter.listeners.
  destruct (t !! e) as [ls|] eqn:Hls; simpl.
  - destruct (decide (l ∈ ls)) as [Hin|Hin].
    + case_decide as He.
      * subst. by rewrite lookup_insert_eq.
      * by rewrite lookup_insert_ne.
    + case_decide as He; [|done]. subst. rewrite Hls. simpl.
      by rewrite remove_last_absent.
  - case_decide as He; [|done]. subst. by rewrite Hls.
Qed.

Lemma elem_of_remove_last (x l : Listener) (ls : list Listener) :
  x ≠ l → x ∈ Emitter.remove_last l ls ↔ x ∈ ls.
Proof.
  intros Hne. induction ls as [|y ls IH]; [done|]. simpl.
  destruct (decide (y = l)) as [->|Hy].
  - destruct (decide (l ∈ ls)).
    + rewrite !elem_of_cons, IH. done.
    + rewrite elem_of_cons. naive_solver.
  - rewrite !elem_of_cons, IH. done.
Qed.

Lemma wired_on (e : string) (fn : nat) (t : gmap string (list Listener)) :
  wired t → wired (Emitter.on e (Handler fn) t).
Proof.
  intros Hw channel b. rewrite listeners_on. case_decide as He; [|apply Hw].
  subst. rewrite elem_of_app, list_elem_of_singleton. rewrite (Hw channel b).
  naive_solver.
Qed.

Lemma wired_off (e : string) (fn : nat) (t : gmap string (list Listener)) :
  wired t → wired (Emitter.off e (Handler fn) t).
Proof.
  intros Hw channel b. rewrite listeners_off. case_decide as He; [|apply Hw].
  subst. rewrite elem_of_remove_last by done. apply Hw.
Qed.

Lemma wired_main `{Imports} (jar : Cookies.Jar) (args : list string) :
  wired (ipcRenderer (load jar args)).
Proof.
  intros channel b. simpl. rewrite !listeners_on.
  unfold Emitter.listeners. rewrite !lookup_empty. simpl.
  repeat case_decide; subst; rewrite ?elem_of_app, ?list_elem_of_singleton,
    ?elem_of_nil; naive_solver.
Qed.

Lemma flag_after_snoc (ls : list Listener) (l : Listener) (b : bool) :
  flag_after (ls ++ [l]) b =
  match l with SetMaximized b' => b' | Handler _ => flag_after ls b end.
Proof. unfold flag_after. by rewrite foldl_snoc. Qed.

Lemma flag_after_none (ls : list Listener) (b : bool) :
  (∀ b', SetMaximized b' ∉ ls) → flag_after ls b = b.
Proof.
  induction ls as [|l ls IH] using rev_ind; [done|]. intros Hn.
  rewrite flag_after_snoc. destruct l as [b'|fn].
  - exfalso. apply (Hn b'). apply elem_of_app. right. by left.
  - apply IH. intros b' Hin. apply (Hn b'), elem_of_app. by left.
Qed.

Lemma flag_after_all (v : bool) (ls : list Listener) (b : bool) :
  (∀ b', SetMaximized b' ∈ ls → b' = v) → SetMaximized v ∈ ls →
  flag_after ls b = v.
Proof.
  induction ls as [|l ls IH] using rev_ind; intros Hall Hin.
  - by apply elem_of_nil in Hin.
  - rewrite flag_after_snoc. destruct l as [b'|fn].
    + apply Hall, elem_of_app. right. by left.
    + apply IH.
      * intros b' Hb. apply Hall, elem_of_app. by left.
      * apply elem_of_app in Hin as [Hin|Hin]; [done|].
        by apply list_elem_of_singleton in Hin.
Qed.

(** On a wired table an event sets the flag exactly as [notified] says. *)
Lemma emit_notified (channel : string) (s : Preload) :
  wired (ipcRenderer s) →
  isMaximized (emit channel s) = notified (Push channel) (isMaximized s).
Proof.
  intros Hw. rewrite emit_flag. simpl.
  destruct (decide (channel = "maximize")) as [->|Hm].
  - apply flag_after_all.
    + intros b' Hb. apply Hw in Hb. naive_solver.
    + apply Hw. by left.
  - destruct (decide (channel = "unmaximize")) as [->|Hu].
    + apply flag_after_all.
      * intros b' Hb. apply Hw in Hb. naive_solver.
      * apply Hw. by right.
    + apply flag_after_none. intros b' Hb. apply Hw in Hb. naive_solver.
Qed.

Lemma step_ipcRenderer `{Imports} (ev : Event) (L : Loop) :
  wired (ipcRenderer (mem L)) → wired (ipcRenderer (mem (step ev L))).
Proof.
  intros Hw. destruct ev as [channel|op|eventName handler|c|id r]; simpl.
  - by rewrite emit_flag.
  - destruct op; simpl; try done; try (by apply wired_on);
      match goal with
      | |- context [start ?t ?L] =>
          pose proof (start_page t L) as Hp; unfold page in Hp; simpl in Hp;
          injection Hp as _ _ _ _ _ ->; done
      end.
  - by apply wired_on.
  - destruct c; simpl; by apply wired_off.
  - pose proof (resume_page id r L) as Hp. unfold page in Hp.
    injection Hp as _ _ _ _ _ ->. done.
Qed.

Lemma step_isMaximized `{Imports} (ev : Event) (L : Loop) :
  wired (ipcRenderer (mem L)) →
  isMaximized (mem (step ev L)) = notified ev (isMaximized (mem L)).
Proof.
  intros Hw. destruct ev as [channel|op|eventName handler|c|id r].
  - simpl step. simpl mem. by apply emit_notified.
  - destruct op; simpl; try done;
      match goal with
      | |- context [start ?t ?L] =>
          pose proof (start_page t L) as Hp; unfold page in Hp; simpl in Hp;
          by injection Hp
      end.
  - done.
  - by destruct c.
  - simpl. pose proof (resume_page id r L) as Hp. unfold page in Hp.
    by injection Hp.
Qed.

Lemma exec_wired `{Imports} (jar : Cookies.Jar) (args : list string)
    (evs : list Event) :
  wired (ipcRenderer (mem (exec evs (attach jar args)))).
Proof.
  induction evs as [|ev evs IH] using rev_ind; [apply wired_main|].
  rewrite exec_snoc. by apply step_ipcRenderer.
Qed.

Lemma last_notified_snoc (evs : list Event) (ev : Event) :
  last_notified (evs ++ [ev]) = notified ev (last_notified evs).
Proof. unfold last_notified. by rewrite foldl_snoc. Qed.

(** ** The maximized flag *)

(** C2.  After any sequence of events since the script loaded (host
    notifications on any channel, bridge calls, closures called, requests
    settling), [isMaximized()] returns [false] if the host has sent neither
    "maximize" nor "unmaximize", and otherwise [true] or [false] as the last
    of those was "maximize" or "unmaximize". *)
Theorem isMaximized_last_notification `{Imports}
    (jar : Cookies.Jar) (args : list string) (evs : list Event) :
  (desktopBridge IsMaximized (mem (exec evs (attach jar args)))).2 =
    Value (VBool (last_notified evs)).
Proof.
  simpl. do 2 f_equal.
  induction evs as [|ev evs IH] using rev_ind; [done|].
  rewrite exec_snoc, last_notified_snoc, <- IH.
  apply step_isMaximized, exec_wired.
Qed.

(** C10.  At any point of a run, [minimizeWindow()], [maximizeWindow()],
    [unmaximizeWindow()] and [handleTitleBarDoubleClick()] send one message
    and leave the flag that [isMaximized()] reads as it was; an event that
    changes the flag is the host's "maximize" or "unmaximize". *)
Theorem commands_leave_isMaximized `{Imports}
    (jar : Cookies.Jar) (args : list string) (evs : list Event) (op : Op) :
  op ∈ [MinimizeWindow; MaximizeWindow; UnmaximizeWindow;
        HandleTitleBarDoubleClick] →
  let L := exec evs (attach jar args) in
  (∃ channel, step (Call op) L = with_mem (send channel (mem L)) L)
  ∧ isMaximized (mem (step (Call op) L)) = isMaximized (mem L)
  ∧ ∀ ev, isMaximized (mem (step ev L)) ≠ isMaximized (mem L) →
          ev = Push "maximize" ∨ ev = Push "unmaximize".
Proof.
  intros Hin L. split_and!.
  - repeat (apply elem_of_cons in Hin as [->|Hin]);
      [by eexists..|by apply elem_of_nil in Hin].
  - by rewrite step_isMaximized by apply exec_wired.
  - intros ev. rewrite step_isMaximized by apply exec_wired.
    destruct ev as [channel| | | |]; try done. simpl.
    repeat case_decide; subst; auto. done.
Qed.

(** ** Attaching and detaching listeners *)

Lemma off_absent (e : string) (l : Listener) (t : gmap string (list Listener)) :
  l ∉ Emitter.listeners e t → Emitter.off e l t = t.
Proof.
  unfold Emitter.off, Emitter.listeners.
  destruct (t !! e) as [ls|]; simpl; [|done].
  intros Hn. by rewrite decide_False.
Qed.

Lemma with_ipcRenderer_same (s : Preload) (f : gmap string (list Listener) → _) :
  f (ipcRenderer s) = ipcRenderer s → with_ipcRenderer f s = s.
Proof. destruct s. unfold with_ipcRenderer. simpl. by intros ->. Qed.

Lemma remove_last_app (l : Listener) (a b : list Listener) :
  l ∉ a → Emitter.remove_last l (a ++ b) = a ++ Emitter.remove_last l b.
Proof.
  induction a as [|x a IH]; [done|]. intros Hn.
  apply not_elem_of_cons in Hn as [Hx Hn]. simpl.
  rewrite decide_False by done. by rewrite IH.
Qed.

Lemma filter_absent (h : nat) (hs : list nat) :
  h ∉ hs → filter (λ x, x ≠ h) hs = hs.
Proof.
  induction hs as [|x hs IH]; [done|]. intros Hn.
  apply not_elem_of_cons in Hn as [Hx Hn].
  rewrite filter_cons_True by done. by rewrite IH.
Qed.

(** Where every function is registered once, [off] takes out the function
    it is given and nothing else. *)
Lemma remove_last_distinct (h : nat) (hs : list nat) :
  NoDup hs →
  Emitter.remove_last (Handler h) (Handler <$> hs) =
  Handler <$> filter (λ x, x ≠ h) hs.
Proof.
  induction hs as [|x hs IH]; [done|]. intros Hnd.
  apply NoDup_cons in Hnd as [Hx Hnd].
  rewrite fmap_cons. cbn [Emitter.remove_last].
  destruct (decide (x = h)) as [->|Hne].
  - rewrite decide_True by done. rewrite filter_cons_False by naive_solver.
    rewrite filter_absent by done.
    rewrite decide_False; [done|]. rewrite list_elem_of_fmap.
    intros (y & [= ->] & Hy). done.
  - rewrite decide_False by congruence.
    rewrite filter_cons_True by done. rewrite fmap_cons. by rewrite IH.
Qed.

Lemma attach_all_listeners `{Imports} (e e' : string)
    (calls : list (Bridge * nat)) (s : Preload) :
  Emitter.listeners e' (ipcRenderer (attach_all e calls s).1) =
  if decide (e = e')
  then Emitter.listeners e (ipcRenderer s) ++ (Handler <$> calls.*2)
  else Emitter.listeners e' (ipcRenderer s).
Proof.
  revert s. induction calls as [|[via fn] calls IH]; intros s; simpl.
  - case_decide; [subst; by rewrite app_nil_r | done].
  - rewrite IH. destruct via; simpl; rewrite !listeners_on;
      case_decide; subst; try done;
      rewrite decide_True by done; by rewrite <- app_assoc.
Qed.

(** What a sequence of attach calls returns: one closure for each call,
    over the event name and the function of that call. *)
Lemma attach_all_returned `{Imports} (e : string)
    (calls : list (Bridge * nat)) (s : Preload) (c : Closure) :
  Detach c ∈ (attach_all e calls s).2 →
  captured c ∈ calls.*2 ∧
  ∀ s', invoke c s' =
        with_ipcRenderer (Emitter.off e (Handler (captured c))) s'.
Proof.
  revert s. induction calls as [|[via fn] calls IH]; intros s; simpl.
  - intros Hin. by apply elem_of_nil in Hin.
  - intros Hin. apply elem_of_cons in Hin as [Heq|Hin].
    + destruct via; simpl in Heq; injection Heq as ->; simpl;
        (split; [by left | done]).
    + destruct (IH _ Hin) as [Hc Hinv]. split; [by right | done].
Qed.

Lemma filter_twice (h : nat) (gone : list nat) (hs : list nat) :
  filter (λ x, x ≠ h) (filter (λ x, x ∉ gone) hs) =
  filter (λ x, x ∉ gone ++ [h]) hs.
Proof.
  induction hs as [|x hs IH]; [done|].
  destruct (decide (x ∈ gone)) as [Hx|Hx].
  - rewrite (filter_cons_False (λ x, x ∉ gone)) by naive_solver.
    rewrite (filter_cons_False (λ x, x ∉ gone ++ [h])); [done|].
    rewrite elem_of_app. naive_solver.
  - rewrite (filter_cons_True (λ x, x ∉ gone)) by done.
    destruct (decide (x = h)) as [->|Hne].
    + rewrite filter_cons_False by naive_solver.
      rewrite (filter_cons_False (λ x, x ∉ gone ++ [h])); [done|].
      rewrite elem_of_app, list_elem_of_singleton. naive_solver.
    + rewrite filter_cons_True by done.
      rewrite (filter_cons_True (λ x, x ∉ gone ++ [h])); [by rewrite IH|].
      rewrite elem_of_app, list_elem_of_singleton. naive_solver.
Qed.

Lemma filter_nothing (hs : list nat) :
  filter (λ x, x ∉ @nil nat) hs = hs.
Proof.
  induction hs as [|x hs IH]; [done|].
  rewrite filter_cons_True by apply not_elem_of_nil. by rewrite IH.
Qed.

Lemma invoke_all_snoc (cs : list Closure) (c : Closure) (s : Preload) :
  invoke_all (cs ++ [c]) s = invoke c (invoke_all cs s).
Proof. unfold invoke_all. by rewrite foldl_snoc. Qed.

(** After any calls of closures that each take out a function of [hs], the
    functions left are those of [hs] that no called closure captured. *)
Lemma invoke_all_listeners (e : string) (old : list Listener) (hs : list nat)
    (cs : list Closure) (s : Preload) :
  NoDup hs →
  (∀ fn, fn ∈ hs → Handler fn ∉ old) →
  (∀ c, c ∈ cs → captured c ∈ hs ∧
     ∀ s', invoke c s' = with_ipcRenderer (Emitter.off e (Handler (captured c))) s') →
  Emitter.listeners e (ipcRenderer s) = old ++ (Handler <$> hs) →
  Emitter.listeners e (ipcRenderer (invoke_all cs s)) =
  old ++ (Handler <$> filter (λ fn, fn ∉ captured <$> cs) hs).
Proof.
  intros Hnd Hold Hcs Hs.
  induction cs as [|c cs IH] using rev_ind.
  - simpl. by rewrite Hs, filter_nothing.
  - rewrite invoke_all_snoc.
    destruct (Hcs c) as [Hc Hinv]; [apply elem_of_app; right; by left|].
    rewrite Hinv. simpl. rewrite listeners_off, decide_True by done.
    rewrite IH by (intros c' Hc'; apply Hcs, elem_of_app; by left).
    rewrite remove_last_app by by apply Hold.
    rewrite remove_last_distinct by by apply NoDup_filter.
    by rewrite fmap_app, filter_twice.
Qed.

(** C3, as the code has it.  Take attach calls on one event name, through
    either bridge, with functions that are pairwise distinct and not yet
    registered for that name.  Whichever of the returned closures are then
    called, in any order and any number of times, the listeners for that name
    are those from before the calls followed by the attached functions
    except those whose own closure was called; and calling a closure that was
    called already leaves the state unchanged. *)
Theorem detach_removes_own_handler `{Imports} (eventName : string)
    (calls : list (Bridge * nat)) (s : Preload) (cs : list Closure) :
  NoDup calls.*2 →
  (∀ fn, fn ∈ calls.*2 →
         Handler fn ∉ Emitter.listeners eventName (ipcRenderer s)) →
  (∀ c, c ∈ cs → Detach c ∈ (attach_all eventName calls s).2) →
  let s1 := (attach_all eventName calls s).1 in
  let s2 := invoke_all cs s1 in
  Emitter.listeners eventName (ipcRenderer s1) =
    Emitter.listeners eventName (ipcRenderer s) ++ (Handler <$> calls.*2)
  ∧ Emitter.listeners eventName (ipcRenderer s2) =
    Emitter.listeners eventName (ipcRenderer s) ++
    (Handler <$> filter (λ fn, fn ∉ captured <$> cs) calls.*2)
  ∧ ∀ c, c ∈ cs → invoke c s2 = s2.
Proof.
  intros Hnd Hold Hcs s1 s2.
  assert (Hs1 : Emitter.listeners eventName (ipcRenderer s1) =
    Emitter.listeners eventName (ipcRenderer s) ++ (Handler <$> calls.*2)).
  { subst s1. by rewrite attach_all_listeners, decide_True. }
  assert (Hs2 : Emitter.listeners eventName (ipcRenderer s2) =
    Emitter.listeners eventName (ipcRenderer s) ++
    (Handler <$> filter (λ fn, fn ∉ captured <$> cs) calls.*2)).
  { subst s2. apply invoke_all_listeners; try done.
    intros c Hc. by apply (attach_all_returned eventName calls s), Hcs. }
  split_and!; [done..|].
  intros c Hc.
  destruct (attach_all_returned eventName calls s c (Hcs c Hc)) as [Hin Hinv].
  rewrite Hinv. apply with_ipcRenderer_same, off_absent.
  rewrite Hs2, elem_of_app, list_elem_of_fmap.
  intros [Ho|(fn & [= <-] & Hfn)].
  - by apply (Hold (captured c)).
  - apply list_elem_of_filter in Hfn as [Hfn _]. apply Hfn.
    apply list_elem_of_fmap. by exists c.
Qed.

(** C9.  The two [addIpcEventListener] do the same: called with the same
    event name and function on the same state they leave the same state, and
    the closures they return, though two pieces of code, do the same to
    every state. *)
Theorem bridges_attach_alike `{Imports} (eventName : string) (handler : nat)
    (s : Preload) :
  (addIpcEventListener Desktop eventName handler s).1 =
  (addIpcEventListener Menu eventName handler s).1
  ∧ ∃ c1 c2,
      (addIpcEventListener Desktop eventName handler s).2 = Detach c1
      ∧ (addIpcEventListener Menu eventName handler s).2 = Detach c2
      ∧ ∀ s', invoke c1 s' = invoke c2 s'.
Proof.
  split; [done|].
  by exists (DesktopOff eventName handler), (MenuOff eventName handler).
Qed.

(** ** Suspended calls *)

Lemma take_absent (id : nat) (w : list (nat * (JsVal → Task JsVal))) :
  id ∉ w.*1 → take id w = None.
Proof.
  induction w as [|[i k] w IH]; [done|]. simpl. intros Hn.
  apply not_elem_of_cons in Hn as [Hi Hn].
  rewrite decide_False by done. by rewrite IH.
Qed.

Lemma take_snoc (id : nat) (k : JsVal → Task JsVal)
    (w : list (nat * (JsVal → Task JsVal))) :
  id ∉ w.*1 → take id (w ++ [(id, k)]) = Some (k, w).
Proof.
  induction w as [|[i k'] w IH]; simpl; intros Hn.
  - by rewrite decide_True.
  - apply not_elem_of_cons in Hn as [Hi Hn].
    rewrite decide_False by done. by rewrite IH.
Qed.

Lemma take_some (id : nat) (w rest : list (nat * (JsVal → Task JsVal)))
    (k : JsVal → Task JsVal) :
  take id w = Some (k, rest) → id ∈ w.*1 ∧ ∀ i, i ∈ rest.*1 → i ∈ w.*1.
Proof.
  revert rest. induction w as [|[i k'] w IH]; intros rest; simpl; [done|].
  case_decide as Hi.
  - intros [= <- <-]. subst. split; [by left | intros j Hj; by right].
  - destruct (take id w) as [[k'' rest']|]; [|done].
    intros [= <- <-]. destruct (IH rest' eq_refl) as [Hin Hsub].
    split; [by right|]. simpl. intros j Hj.
    apply elem_of_cons in Hj as [->|Hj]; [by left | right; by apply Hsub].
Qed.

Lemma numbered_fresh (L : Loop) : numbered L → promises L ∉ (waiting L).*1.
Proof. intros Hn Hin. apply Hn in Hin. lia. Qed.

Lemma park_numbered (id : nat) (r : Preload * Paused JsVal) w d n :
  id < n → (∀ i, i ∈ w.*1 → i < n) → numbered (park id r w d n).
Proof.
  intros Hid Hw. unfold park, numbered. destruct r.2; simpl; [done|].
  intros i. rewrite fmap_app, elem_of_app. simpl.
  rewrite list_elem_of_singleton. intros [Hi| ->]; [by apply Hw | done].
Qed.

Lemma step_numbered `{Imports} (ev : Event) (L : Loop) :
  numbered L → numbered (step ev L).
Proof.
  intros Hn. destruct ev as [channel|op|eventName handler|c|id r]; simpl;
    try done.
  - destruct (desktopBridge op (mem L)) as [s [v|c|t]]; try done.
    apply park_numbered; simpl; [lia|]. intros i Hi. apply Hn in Hi. lia.
  - unfold resume. destruct (take id (waiting L)) as [[k rest]|] eqn:Ht; [|done].
    apply take_some in Ht as [Hid Hsub]. destruct r.
    + apply park_numbered; [by apply Hn | intros i Hi; by apply Hn, Hsub].
    + intros i Hi. by apply Hn, Hsub.
Qed.

Lemma exec_numbered `{Imports} (jar : Cookies.Jar) (args : list string)
    (evs : list Event) :
  numbered (exec evs (attach jar args)).
Proof.
  induction evs as [|ev evs IH] using rev_ind.
  - intros id Hid. by apply elem_of_nil in Hid.
  - rewrite exec_snoc. by apply step_numbered.
Qed.

(** A call that stops at its first [await], and the request then failing:
    the promise of the call rejects with the reason, and nothing else of the
    loop changes. *)
Lemma start_then_reject (t : Task JsVal) (L : Loop) (s : Preload)
    (k : JsVal → Task JsVal) (e : JsError) :
  numbered L → run t (mem L) = (s, Blocked k) →
  start t L =
    {| mem := s; waiting := waiting L ++ [(promises L, k)];
       settled := settled L; promises := S (promises L) |}
  ∧ resume (promises L) (Rejected e) (start t L) =
    {| mem := s; waiting := waiting L;
       settled := settled L ++ [(promises L, Rejected e)];
       promises := S (promises L) |}.
Proof.
  intros Hn Hrun. unfold start. rewrite Hrun. unfold park. simpl.
  split; [done|]. unfold resume. simpl.
  by rewrite take_snoc by by apply numbered_fresh.
Qed.

(** An extension operation called while no handler is cached asks the host
    for the home path and waits. *)
Lemma run_extensionOp_absent `{Imports} (m : Method) (s : Preload) :
  extensionHandler s = None →
  ∃ t, (desktopBridge (extensionOp m) s) = (s, Promise t) ∧
       run t s = (with_effect (Requested (Invoke "getHomePath" [])) s,
                  Blocked (pending_extensionOp m)).
Proof.
  intros Hs. destruct m; simpl; eexists; (split; [done|]); simpl;
    by rewrite Hs.
Qed.

(** With a handler cached it goes to the handler. *)
Lemma run_extensionOp_cached `{Imports} (m : Method) (s : Preload) (h : nat) :
  extensionHandler s = Some h →
  ∃ t, (desktopBridge (extensionOp m) s) = (s, Promise t) ∧
       run t s = (with_effect (Requested (OnHandler h m)) s, Blocked Ret).
Proof.
  intros Hs. destruct m; simpl; eexists; (split; [done|]); simpl;
    by rewrite Hs; simpl; rewrite Hs.
Qed.

(** ** The extension handler *)

(** An extension operation called with no handler cached, the host answering
    with the home path and the handler's method then settling: the loop that
    results. *)
Lemma first_use_steps `{Imports} (L : Loop) (m : Method) (home : string)
    (r : Outcome JsVal) :
  promises L ∉ (waiting L).*1 →
  extensionHandler (mem L) = None →
  let h := length (constructed (mem L)) in
  exec [Call (extensionOp m); Answer (promises L) (Resolved (VStr home));
        Answer (promises L) r] L =
  {| mem := with_effect (Requested (OnHandler h m))
              (with_extensionHandler (Some h)
                 (with_constructed
                    (pathJoin [home; ".lichtblick-suite"; "extensions"])
                    (with_effect (Requested (Invoke "getHomePath" []))
                       (mem L))));
     waiting := waiting L; settled := settled L ++ [(promises L, r)];
     promises := S (promises L) |}.
Proof.
  intros Hfresh Hslot h.
  destruct (run_extensionOp_absent m (mem L) Hslot) as (t & Hop & Hrun).
  unfold exec. cbn [foldl]. unfold step at 3. rewrite Hop.
  unfold start, park. simpl mem. rewrite Hrun. simpl.
  unfold resume at 2. simpl. rewrite take_snoc by done.
  unfold park. simpl.
  unfold resume. simpl. rewrite take_snoc by done.
  by destruct r.
Qed.

(** C7.  At any point of a run where no handler is cached, an extension
    operation asks the host for the home path; if that request fails, the
    promise of the operation rejects with the reason and the state of the
    script is the one it had while waiting (no handler cached, none
    constructed).  The next extension operation then starts from scratch: it
    asks the host again and, when the host answers, constructs a handler for
    the directory under the home path, caches it and calls its method on
    it. *)
Theorem failed_lookup_caches_nothing `{Imports}
    (jar : Cookies.Jar) (args : list string) (evs : list Event)
    (m m' : Method) (e : JsError) (home : string) (r : Outcome JsVal) :
  let L := exec evs (attach jar args) in
  extensionHandler (mem L) = None →
  let id := promises L in
  let L1 := step (Call (extensionOp m)) L in
  let L2 := step (Answer id (Rejected e)) L1 in
  let L3 := exec [Call (extensionOp m');
                  Answer (promises L2) (Resolved (VStr home));
                  Answer (promises L2) r] L2 in
  mem L1 = with_effect (Requested (Invoke "getHomePath" [])) (mem L)
  ∧ settled L2 = settled L ++ [(id, Rejected e)]
  ∧ waiting L2 = waiting L
  ∧ mem L2 = mem L1
  ∧ extensionHandler (mem L2) = None
  ∧ constructed (mem L2) = constructed (mem L)
  ∧ effects (mem (step (Call (extensionOp m')) L2)) =
    effects (mem L2) ++ [Requested (Invoke "getHomePath" [])]
  ∧ effects (mem L3) =
    effects (mem L2) ++
    [Requested (Invoke "getHomePath" []);
     Requested (OnHandler (length (constructed (mem L))) m')]
  ∧ constructed (mem L3) =
    constructed (mem L) ++ [pathJoin [home; ".lichtblick-suite"; "extensions"]]
  ∧ extensionHandler (mem L3) = Some (length (constructed (mem L)))
  ∧ settled L3 = settled L2 ++ [(promises L2, r)].
Proof.
  intros L Hslot id L1 L2 L3.
  pose proof (exec_numbered jar args evs) as Hn. fold L in Hn.
  destruct (run_extensionOp_absent m (mem L) Hslot) as (t & Hop & Hrun).
  destruct (start_then_reject t L _ _ e Hn Hrun) as [Hstart Hreject].
  assert (HL1 : L1 = start t L).
  { subst L1. unfold step. by rewrite Hop. }
  assert (HL2 : L2 = resume (promises L) (Rejected e) (start t L)).
  { subst L2 id. by rewrite HL1. }
  rewrite Hreject in HL2. rewrite Hstart in HL1.
  assert (Hslot2 : extensionHandler (mem L2) = None) by by rewrite HL2.
  assert (Hfresh2 : promises L2 ∉ (waiting L2).*1).
  { rewrite HL2. simpl. intros Hin. apply Hn in Hin. lia. }
  assert (HL3 : L3 = _) by apply (first_use_steps L2 m' home r Hfresh2 Hslot2).
  clearbody L3. rewrite HL3. clear HL3.
  assert (Hnext : effects (mem (step (Call (extensionOp m')) L2)) =
                  effects (mem L2) ++ [Requested (Invoke "getHomePath" [])]).
  { destruct (run_extensionOp_absent m' (mem L2) Hslot2) as (t' & Hop' & Hrun').
    unfold step. rewrite Hop'. unfold start. rewrite park_mem. simpl.
    by rewrite Hrun'. }
  rewrite Hnext. clear Hnext. clearbody L2 L1. subst L2 L1. simpl.
  split_and!; try done. by rewrite <- app_assoc.
Qed.

(** ** Which operations return promises *)

(** C6, as the code has it.  At any point of a run:
    - the operations written with [ipcRenderer.invoke] are [async]: the call
      hands out a promise, makes a request and waits; if the request fails,
      the promise rejects with the reason.  An extension operation asks the
      host when no handler is cached;
    - the window commands and the title-bar double click are one
      [ipcRenderer.send]: they return [undefined] at once, no promise is
      handed out, and a failure on the host's side rejects nothing;
    - [isMaximized()] and [getDeepLinks()] return a value at once and leave
      the state alone; [addIpcEventListener] returns its closure and
      [resetDeepLinks()] returns [undefined], both at once. *)
Theorem host_operations `{Imports}
    (jar : Cookies.Jar) (args : list string) (evs : list Event)
    (op : Op) (e : JsError) :
  let L := exec evs (attach jar args) in
  let id := promises L in
  let L1 := step (Call op) L in
  let L2 := step (Answer id (Rejected e)) L1 in
  match op with
  | SetRepresentedFilename _ | UpdateNativeColorScheme | UpdateLanguage
  | GetCLIFlags | FetchLayouts =>
      promises L1 = S id
      ∧ (∃ channel a,
           effects (mem L1) = effects (mem L) ++ [Requested (Invoke channel a)])
      ∧ settled L1 = settled L
      ∧ settled L2 = settled L ++ [(id, Rejected e)]
  | GetExtensions | LoadExtension _ | InstallExtension _
  | UninstallExtension _ =>
      promises L1 = S id
      ∧ (∃ r, effects (mem L1) = effects (mem L) ++ [Requested r]
              ∧ (extensionHandler (mem L) = None → r = Invoke "getHomePath" []))
      ∧ settled L1 = settled L
      ∧ settled L2 = settled L ++ [(id, Rejected e)]
  | HandleTitleBarDoubleClick | MinimizeWindow | MaximizeWindow
  | UnmaximizeWindow | CloseWindow | ReloadWindow =>
      (∃ channel,
         desktopBridge op (mem L) = (send channel (mem L), Value VUndefined))
      ∧ promises L1 = id
      ∧ L2 = L1
  | IsMaximized | GetDeepLinks =>
      ∃ v, desktopBridge op (mem L) = (mem L, Value v)
  | AddIpcEventListener _ _ =>
      ∃ s c, desktopBridge op (mem L) = (s, Detach c)
  | ResetDeepLinks =>
      ∃ s, desktopBridge op (mem L) = (s, Value VUndefined)
  end.
Proof.
  intros L id L1 L2.
  pose proof (exec_numbered jar args evs) as Hn. fold L in Hn. clearbody L.
  assert (Hsync : ∀ s, resume id (Rejected e) (with_mem s L) = with_mem s L).
  { intros s. unfold resume. simpl.
    by rewrite take_absent by by apply numbered_fresh. }
  assert (Hasync : ∀ t r k,
    run t (mem L) = (with_effect (Requested r) (mem L), Blocked k) →
    promises (start t L) = S id
    ∧ effects (mem (start t L)) = effects (mem L) ++ [Requested r]
    ∧ settled (start t L) = settled L
    ∧ settled (resume id (Rejected e) (start t L)) =
      settled L ++ [(id, Rejected e)]).
  { intros t r k Hrun.
    destruct (start_then_reject t L _ _ e Hn Hrun) as [Hstart Hreject].
    subst id. rewrite Hreject, Hstart. done. }
  assert (Hext : ∀ m,
    promises (step (Call (extensionOp m)) L) = S id
    ∧ (∃ r, effects (mem (step (Call (extensionOp m)) L)) =
              effects (mem L) ++ [Requested r]
            ∧ (extensionHandler (mem L) = None → r = Invoke "getHomePath" []))
    ∧ settled (step (Call (extensionOp m)) L) = settled L
    ∧ settled (step (Answer id (Rejected e)) (step (Call (extensionOp m)) L)) =
      settled L ++ [(id, Rejected e)]).
  { intros m. destruct (extensionHandler (mem L)) as [h|] eqn:Hslot.
    - destruct (run_extensionOp_cached m (mem L) h Hslot) as (t & Hop & Hrun).
      destruct (Hasync _ _ _ Hrun) as (Hp & He & Hs & Hr).
      unfold step. rewrite Hop. split_and!; [done| |done|done].
      eexists. split; [exact He | done].
    - destruct (run_extensionOp_absent m (mem L) Hslot) as (t & Hop & Hrun).
      destruct (Hasync _ _ _ Hrun) as (Hp & He & Hs & Hr).
      unfold step. rewrite Hop. split_and!; [done| |done|done].
      eexists. split; [exact He | done]. }
  destruct op; try done;
    try (by eexists);
    try (by do 2 eexists);
    try (split_and!; [by eexists | done | apply Hsync]);
    try (match goal with
         | L1 := step (Call ?op) L |- _ =>
             let r := eval cbn in (desktopBridge op (mem L)).2 in
             lazymatch r with
             | Promise ?t =>
                 destruct (Hasync t _ _ eq_refl) as (Hp & He & Hs & Hr);
                 split_and!;
                   [exact Hp | do 2 eexists; exact He | exact Hs | exact Hr]
             end
         end).
  - apply (Hext List).
  - apply (Hext (Load id0)).
  - apply (Hext (Install foxeFileData)).
  - apply (Hext (Uninstall id0)).
Qed.

Lemma exec_cons `{Imports} (ev : Event) (evs : list Event) (L : Loop) :
  exec (ev :: evs) L = exec evs (step ev L).
Proof. reflexivity. Qed.

Lemma exec_app `{Imports} (evs evs' : list Event) (L : Loop) :
  exec (evs ++ evs') L = exec evs' (exec evs L).
Proof. unfold exec. by rewrite foldl_app. Qed.

(** Calls that all find the slot empty: each asks the host and waits; the
    slot is still empty after the last. *)
Lemma calls_all_ask `{Imports} (ms : list Method) (L : Loop) :
  extensionHandler (mem L) = None →
  let L' := exec ((λ m, Call (extensionOp m)) <$> ms) L in
  waiting L' =
    waiting L ++ imap (λ i m, (promises L + i, pending_extensionOp m)) ms
  ∧ effects (mem L') =
    effects (mem L) ++ replicate (length ms) (Requested (Invoke "getHomePath" []))
  ∧ constructed (mem L') = constructed (mem L)
  ∧ extensionHandler (mem L') = None.
Proof.
  revert L. induction ms as [|m ms IH]; intros L Hslot.
  - simpl. by rewrite !app_nil_r.
  - rewrite fmap_cons, exec_cons.
    destruct (run_extensionOp_absent m (mem L) Hslot) as (t & Hop & Hrun).
    set (L1 :=
      {| mem := with_effect (Requested (Invoke "getHomePath" [])) (mem L);
         waiting := waiting L ++ [(promises L, pending_extensionOp m)];
         settled := settled L; promises := S (promises L) |}).
    assert (HL1 : step (Call (extensionOp m)) L = L1).
    { unfold step. rewrite Hop. unfold start, park. simpl. by rewrite Hrun. }
    rewrite HL1. clear HL1.
    destruct (IH L1 Hslot) as (Hw & He & Hc & Hs).
    cbv zeta. rewrite Hw, He, Hc, Hs. simpl.
    rewrite <- !app_assoc. simpl. rewrite Nat.add_0_r.
    split_and!; try done.
    do 2 f_equal. apply imap_ext. intros i x _. simpl. f_equal. lia.
Qed.

Lemma run_pending_extensionOp `{Imports} (m : Method) (home : string)
    (s : Preload) :
  run (pending_extensionOp m (VStr home)) s =
  (with_effect (Requested (OnHandler (length (constructed s)) m))
     (with_extensionHandler (Some (length (constructed s)))
        (with_constructed
           (pathJoin [home; ".lichtblick-suite"; "extensions"]) s)),
   Blocked Ret).
Proof. reflexivity. Qed.

(** The answers arriving: each waiting call constructs a handler of its own
    and goes on with it. *)
Lemma answers_all_construct `{Imports} (ms : list Method) (home : string)
    (b : nat) (L : Loop) (others : list (nat * (JsVal → Task JsVal))) :
  waiting L = imap (λ i m, (b + i, pending_extensionOp m)) ms ++ others →
  let L' := exec ((λ id, Answer id (Resolved (VStr home))) <$> seq b (length ms))
              L in
  let n := length (constructed (mem L)) in
  constructed (mem L') =
    constructed (mem L) ++
    replicate (length ms) (pathJoin [home; ".lichtblick-suite"; "extensions"])
  ∧ effects (mem L') =
    effects (mem L) ++ imap (λ i m, Requested (OnHandler (n + i) m)) ms.
Proof.
  revert b L others. induction ms as [|m ms IH]; intros b L others Hw.
  - simpl. by rewrite !app_nil_r.
  - simpl length. rewrite <- cons_seq, fmap_cons, exec_cons.
    assert (HL1 : ∃ L1,
      step (Answer b (Resolved (VStr home))) L = L1
      ∧ mem L1 = (run (pending_extensionOp m (VStr home)) (mem L)).1
      ∧ waiting L1 =
        imap (λ i m, (S b + i, pending_extensionOp m)) ms ++
        (others ++ [(b, Ret)])).
    { eexists. split; [reflexivity|]. simpl. unfold resume. rewrite Hw.
      rewrite imap_cons. simpl. rewrite Nat.add_0_r, decide_True by done.
      unfold park. simpl. split; [done|]. rewrite <- app_assoc. f_equal.
      apply imap_ext. intros i x _. simpl. f_equal. lia. }
    destruct HL1 as (L1 & -> & Hmem & Hw1).
    destruct (IH (S b) L1 _ Hw1) as [Hc He].
    cbv zeta. rewrite Hc, He, Hmem, run_pending_extensionOp. simpl.
    rewrite <- !app_assoc, length_app. simpl. rewrite Nat.add_0_r.
    split; [done|]. do 2 f_equal. apply imap_ext. intros i x _. simpl.
    do 2 f_equal. lia.
Qed.

(** C1, on the code.  Any number of extension operations called before the
    host has answered the first: every one of them finds the handler slot
    empty and asks the host for the home path, and as each answer arrives a
    handler of its own is constructed and used.  With [n] calls there are [n]
    round trips and [n] handlers, call [i] going on with handler [i]. *)
Theorem concurrent_first_use_constructs_anew `{Imports}
    (jar : Cookies.Jar) (args : list string) (ms : list Method) (home : string) :
  let L := exec (first_use ms home) (attach jar args) in
  let dir := pathJoin [home; ".lichtblick-suite"; "extensions"] in
  effects (mem L) =
    replicate (length ms) (Requested (Invoke "getHomePath" [])) ++
    imap (λ i m, Requested (OnHandler i m)) ms
  ∧ constructed (mem L) = replicate (length ms) dir.
Proof.
  intros L dir. subst L. unfold first_use. rewrite exec_app.
  destruct (calls_all_ask ms (attach jar args) eq_refl) as (Hw & He & Hc & _).
  simpl in Hw.
  destruct (answers_all_construct ms home 0 _ [] (eq_trans Hw (eq_sym (app_nil_r _))))
    as [Hc' He'].
  rewrite Hc', He', Hc, He. done.
Qed.

(** Two calls: two round trips, two handlers, the second one cached. *)
Lemma concurrent_first_use_twice `{Imports}
    (jar : Cookies.Jar) (args : list string) (m1 m2 : Method) (home : string) :
  let L := exec [Call (extensionOp m1); Call (extensionOp m2);
                 Answer 0 (Resolved (VStr home));
                 Answer 1 (Resolved (VStr home))] (attach jar args) in
  let dir := pathJoin [home; ".lichtblick-suite"; "extensions"] in
  effects (mem L) =
    [Requested (Invoke "getHomePath" []); Requested (Invoke "getHomePath" []);
     Requested (OnHandler 0 m1); Requested (OnHandler 1 m2)]
  ∧ constructed (mem L) = [dir; dir]
  ∧ extensionHandler (mem L) = Some 1.
Proof. by destruct m1, m2. Qed.

(** ** Network interfaces *)

Lemma push_entries (name : string) (iface : list Network.Info)
    (output : list Network.Obj) :
  foldl (λ output info, output ++ [Network.entry name info]) output iface =
  output ++ (Network.entry name <$> iface).
Proof.
  revert output. induction iface as [|info iface IH]; intros output; simpl.
  - by rewrite app_nil_r.
  - rewrite IH. by rewrite <- app_assoc.
Qed.

(** The loop of [getNetworkInterfaces] adds, name after name, the entries
    of the names that have a list. *)
Lemma getNetworkInterfaces_names (ifaces : Network.Interfaces)
    (names : list string) (output : list Network.Obj) :
  foldl (λ output name,
           match Network.at_name name ifaces with
           | None => output
           | Some iface =>
               foldl (λ output info, output ++ [Network.entry name info])
                     output iface
           end) output names =
  output ++ (names ≫= λ name,
               match Network.at_name name ifaces with
               | None => []
               | Some iface => Network.entry name <$> iface
               end).
Proof.
  revert output. induction names as [|name names IH]; intros output; simpl.
  - by rewrite app_nil_r.
  - rewrite IH. destruct (Network.at_name name ifaces) as [iface|]; simpl.
    + by rewrite push_entries, <- app_assoc.
    + done.
Qed.

Lemma at_name_some (name : string) (iface : list Network.Info)
    (ifaces : Network.Interfaces) :
  Network.at_name name ifaces = Some iface → name ∈ ifaces.*1.
Proof.
  induction ifaces as [|[n v] ifaces IH]; simpl; [done|].
  case_decide; [subst; by left | right; by apply IH].
Qed.

Lemma elem_of_getNetworkInterfaces (ifaces : Network.Interfaces)
    (e : Network.Obj) :
  e ∈ Network.getNetworkInterfaces ifaces ↔
  ∃ name iface info,
    Network.at_name name ifaces = Some iface ∧ info ∈ iface ∧
    e = Network.entry name info.
Proof.
  unfold Network.getNetworkInterfaces.
  rewrite getNetworkInterfaces_names, app_nil_l, list_elem_of_bind. split.
  - intros (name & He & Hname).
    destruct (Network.at_name name ifaces) as [iface|] eqn:Hat;
      [|by apply elem_of_nil in He].
    apply list_elem_of_fmap in He as (info & -> & Hinfo).
    by exists name, iface, info.
  - intros (name & iface & info & Hat & Hinfo & ->).
    exists name. rewrite Hat. split.
    + apply list_elem_of_fmap. by exists info.
    + by apply at_name_some in Hat.
Qed.

Lemma entry_name (name : string) (info : Network.Info) :
  Network.get "name" (Network.entry name info) = VStr name.
Proof. by destruct info as [? ? [|?] ? ? [?|]]. Qed.

Lemma entry_cidr (name : string) (info : Network.Info) :
  Network.has "cidr" (Network.entry name info) = true
  ∧ Network.get "cidr" (Network.entry name info) =
    match Network.cidr info with Some c => VStr c | None => VUndefined end.
Proof. by destruct info as [? ? [|?] ? ? [?|]]. Qed.

(** C8.  Every entry that [getNetworkInterfaces()] returns was made from an
    address of an interface name that has an address list, and carries that
    name; it has a [cidr] key, whose value is the CIDR the host reported, or
    [undefined] where the host reported none. *)
Theorem getNetworkInterfaces_entries (ifaces : Network.Interfaces)
    (e : Network.Obj) :
  e ∈ Network.getNetworkInterfaces ifaces →
  ∃ name iface info,
    Network.at_name name ifaces = Some iface ∧ info ∈ iface
    ∧ e = Network.entry name info
    ∧ Network.get "name" e = VStr name
    ∧ Network.has "cidr" e = true
    ∧ Network.get "cidr" e =
      match Network.cidr info with Some c => VStr c | None => VUndefined end.
Proof.
  intros He. apply elem_of_getNetworkInterfaces in He
    as (name & iface & info & Hat & Hinfo & ->).
  exists name, iface, info. split_and!; try done.
  - apply entry_name.
  - apply entry_cidr.
  - apply entry_cidr.
Qed.

(** ** The properties on examples *)

(** Three functions attached through both bridges; the closure of the
    second called twice takes out the second and only the second. *)
Lemma detach_removes_own_handler_example :
  let s := load (H := posix) [] [] in
  let calls := [(Desktop, 1); (Menu, 2); (Desktop, 3)] in
  let cs := [MenuOff "enter-full-screen" 2; MenuOff "enter-full-screen" 2] in
  Emitter.listeners "enter-full-screen"
    (ipcRenderer
       (invoke_all cs (attach_all (H := posix) "enter-full-screen" calls s).1)) =
  [Handler 1; Handler 3].
Proof.
  intros s calls cs.
  refine (proj1 (proj2
    (detach_removes_own_handler (H := posix) "enter-full-screen" calls s cs
       _ _ _))).
  - vm_compute. repeat constructor; set_solver.
  - intros fn _. vm_compute. apply not_elem_of_nil.
  - intros c Hc. vm_compute.
    repeat (apply elem_of_cons in Hc as [->|Hc]); [| |by apply elem_of_nil in Hc];
      right; by left.
Defined.

(** C3 as stated fails where one function is attached twice: the closure of
    the first attach, called a second time, changes the state again and
    takes out the registration of the second attach, whose own closure was
    never called. *)
Lemma detach_twice_removes_another :
  let s := load (H := posix) [] [] in
  let r := attach_all (H := posix) "enter-full-screen"
             [(Desktop, 7); (Desktop, 7)] s in
  let c := DesktopOff "enter-full-screen" 7 in
  r.2 = [Detach c; Detach c]
  ∧ Emitter.listeners "enter-full-screen" (ipcRenderer r.1) =
    [Handler 7; Handler 7]
  ∧ Emitter.listeners "enter-full-screen" (ipcRenderer (invoke c r.1)) =
    [Handler 7]
  ∧ Emitter.listeners "enter-full-screen"
      (ipcRenderer (invoke c (invoke c r.1))) = []
  ∧ invoke c (invoke c r.1) ≠ invoke c r.1.
Proof.
  intros s r c. split_and!; [by vm_compute..|].
  intros Heq.
  apply (f_equal (λ s, Emitter.listeners "enter-full-screen" (ipcRenderer s)))
    in Heq.
  vm_compute in Heq. discriminate.
Qed.

(** C6 as stated fails for the window commands: each returns [undefined],
    not a promise, and when the host then reports a failure no promise
    rejects. *)
Lemma window_commands_return_no_promise :
  let L := attach (H := posix) [] [] in
  Forall (λ op, (desktopBridge (H := posix) op (mem L)).2 = Value VUndefined)
    [MinimizeWindow; MaximizeWindow; UnmaximizeWindow; CloseWindow; ReloadWindow]
  ∧ (¬ ∃ t, (desktopBridge (H := posix) MinimizeWindow (mem L)).2 = Promise t)
  ∧ settled (exec (H := posix)
               [Call MinimizeWindow; Answer 0 (Rejected (HostError 1))] L) = [].
Proof.
  intros L. split_and!.
  - repeat constructor.
  - intros [t Ht]. discriminate.
  - reflexivity.
Qed.

(** Launch arguments with a link: delivered in a page without cookies, lost
    in a page with the cookie [other]. *)
Lemma links_lost_to_foreign_cookie :
  let args := ["app"; "lichtblick://open?ds=file"] in
  deepLinks (load (H := posix) [] args) = ["lichtblick://open?ds=file"]
  ∧ deepLinks (load (H := posix) [("other", "xfox.ignoreDeepLinks=true")] args)
    = [].
Proof. split; reflexivity. Qed.

(** The home path cannot be had on the first call, and can on the second. *)
Lemma failed_lookup_caches_nothing_example :
  let L := exec (H := posix)
             [Call GetExtensions; Answer 0 (Rejected (HostError 1))]
             (attach (H := posix) [] []) in
  let L' := exec (H := posix)
              [Call (LoadExtension "a"); Answer 1 (Resolved (VStr "/home/u"));
               Answer 1 (Resolved (VStr "content"))] L in
  settled L = [(0, Rejected (HostError 1))]
  ∧ extensionHandler (mem L) = None
  ∧ constructed (mem L) = []
  ∧ effects (mem (step (H := posix) (Call (LoadExtension "a")) L)) =
    [Requested (Invoke "getHomePath" []); Requested (Invoke "getHomePath" [])]
  ∧ effects (mem L') =
    [Requested (Invoke "getHomePath" []); Requested (Invoke "getHomePath" []);
     Requested (OnHandler 0 (Load "a"))]
  ∧ constructed (mem L') = ["/home/u/.lichtblick-suite/extensions"]
  ∧ extensionHandler (mem L') = Some 0
  ∧ settled L' =
    [(0, Rejected (HostError 1)); (1, Resolved (VStr "content"))].
Proof.
  intros L L'.
  destruct (failed_lookup_caches_nothing (H := posix) [] [] []
              List (Load "a") (HostError 1) "/home/u"
              (Resolved (VStr "content")) eq_refl)
    as (_ & Hsettled & _ & _ & Hslot & Hconstructed & Heffects
        & Heffects' & Hconstructed' & Hslot' & Hsettled').
  split_and!.
  - exact Hsettled.
  - exact Hslot.
  - exact Hconstructed.
  - exact Heffects.
  - exact Heffects'.
  - exact Hconstructed'.
  - exact Hslot'.
  - exact Hsettled'.
Defined.

(** The window is maximized, then the renderer asks to maximize it. *)
Lemma commands_leave_isMaximized_example :
  let L := exec (H := posix) [Push "maximize"] (attach (H := posix) [] []) in
  isMaximized (mem L) = true
  ∧ isMaximized (mem (step (H := posix) (Call MaximizeWindow) L)) =
    isMaximized (mem L).
Proof.
  intros L. split; [reflexivity|].
  refine (proj1 (proj2
    (commands_leave_isMaximized (H := posix) [] [] [Push "maximize"]
       MaximizeWindow _))).
  right. left.
Defined.

(** A loopback interface without a CIDR, and a name without addresses. *)
Lemma getNetworkInterfaces_entries_example :
  let lo := {| Network.address := "127.0.0.1"; Network.netmask := "255.0.0.0";
               Network.family := Network.IPv4; Network.mac := "00:00:00:00:00:00";
               Network.internal := true; Network.cidr := None |} in
  let ifaces := [("lo", Some [lo]); ("eth0", None)] in
  Network.getNetworkInterfaces ifaces = [Network.entry "lo" lo]
  ∧ ∃ name iface info,
      Network.at_name name ifaces = Some iface ∧ info ∈ iface
      ∧ Network.entry "lo" lo = Network.entry name info
      ∧ Network.get "name" (Network.entry "lo" lo) = VStr name
      ∧ Network.has "cidr" (Network.entry "lo" lo) = true
      ∧ Network.get "cidr" (Network.entry "lo" lo) =
        match Network.cidr info with Some c => VStr c | None => VUndefined end.
Proof.
  intros lo ifaces. split; [reflexivity|].
  apply (getNetworkInterfaces_entries ifaces (Network.entry "lo" lo)).
  left.
Defined.


(* ================================================================== *)
(** * Further properties of the script *)

(** ** Listeners, without assuming distinct functions *)

Lemma remove_last_snoc (l : Listener) (ls : list Listener) :
  Emitter.remove_last l (ls ++ [l]) = ls.
Proof.
  induction ls as [|x ls IH].
  - cbn [app Emitter.remove_last]. rewrite decide_True by done.
    destruct (decide (l ∈ [])) as [Hin|_]; [by apply elem_of_nil in Hin|done].
  - cbn [app Emitter.remove_last]. destruct (decide (x = l)) as [->|Hne].
    + rewrite decide_True; [by rewrite IH|].
      apply elem_of_app. right. by left.
    + by rewrite IH.
Qed.

(** X1.  An attach undone at once by its own closure leaves every listener list
    as it was, also when the same function was registered before. *)
Theorem attach_then_detach_restores `{Imports} (via : Bridge)
    (eventName : string) (handler : nat) (s : Preload) :
  ∃ c, (addIpcEventListener via eventName handler s).2 = Detach c
       ∧ ∀ e, Emitter.listeners e
                (ipcRenderer
                   (invoke c (addIpcEventListener via eventName handler s).1)) =
              Emitter.listeners e (ipcRenderer s).
Proof.
  destruct via; eexists; (split; [reflexivity|]); intros e; simpl;
    rewrite listeners_off; case_decide as He.
  all: try (subst; by rewrite listeners_on, decide_True, remove_last_snoc).
  all: by rewrite listeners_on, decide_False.
Qed.

Lemma registrations_cons (x y : Listener) (ls : list Listener) :
  registrations x (y :: ls) =
  if decide (y = x) then S (registrations x ls) else registrations x ls.
Proof.
  unfold registrations. case_decide.
  - by rewrite filter_cons_True.
  - by rewrite filter_cons_False.
Qed.

Lemma registrations_absent (x : Listener) (ls : list Listener) :
  x ∉ ls → registrations x ls = 0.
Proof.
  induction ls as [|y ls IH]; [done|]. intros Hn.
  apply not_elem_of_cons in Hn as [Hx Hn].
  rewrite registrations_cons, decide_False by done. by apply IH.
Qed.

Lemma registrations_remove_last (x l : Listener) (ls : list Listener) :
  registrations x (Emitter.remove_last l ls) =
  if decide (x = l) then pred (registrations x ls) else registrations x ls.
Proof.
  induction ls as [|y ls IH]; [by case_decide|]. simpl.
  destruct (decide (y = l)) as [->|Hy].
  - destruct (decide (l ∈ ls)) as [Hin|Hin].
    + rewrite !registrations_cons, IH.
      destruct (decide (x = l)) as [->|Hx].
      * rewrite !decide_True by done. simpl.
        assert (registrations l ls ≠ 0); [|lia].
        clear IH. induction ls as [|z ls IHls]; [by apply elem_of_nil in Hin|].
        rewrite registrations_cons. case_decide; [lia|].
        apply elem_of_cons in Hin as [->|Hin]; [done|by apply IHls].
      * by rewrite decide_False.
    + rewrite registrations_cons.
      destruct (decide (x = l)) as [->|Hx].
      * by rewrite decide_True.
      * by rewrite decide_False.
  - rewrite !registrations_cons, IH.
    destruct (decide (x = l)) as [->|Hx].
    + by rewrite !decide_False by done.
    + done.
Qed.

Lemma remove_last_sublist (l : Listener) (ls : list Listener) :
  sublist (Emitter.remove_last l ls) ls.
Proof.
  induction ls as [|y ls IH]; [done|]. simpl.
  repeat case_decide; try (by apply sublist_skip); by apply sublist_cons.
Qed.

(** X2.  Calling a closure, in any state and however often the functions are
    registered: on every event name the listeners keep their order; of the
    function the closure captured, on the event name it captured, one
    registration goes if there is one; every other count stays. *)
Theorem detach_spares_other_functions (c : Closure) (s : Preload)
    (e : string) (x : Listener) :
  let before := Emitter.listeners e (ipcRenderer s) in
  let after := Emitter.listeners e (ipcRenderer (invoke c s)) in
  sublist after before
  ∧ registrations x after =
    if decide (e = channel_of c ∧ x = Handler (captured c))
    then pred (registrations x before)
    else registrations x before.
Proof.
  intros before after.
  assert (Hafter : after =
    if decide (channel_of c = e)
    then Emitter.remove_last (Handler (captured c)) before else before).
  { subst after before.
    destruct c; simpl; rewrite listeners_off; case_decide; by subst. }
  rewrite Hafter. clear Hafter after.
  destruct (decide (channel_of c = e)) as [He|He].
  - split; [apply remove_last_sublist|].
    rewrite registrations_remove_last.
    destruct (decide (x = Handler (captured c))).
    + by rewrite decide_True.
    + rewrite decide_False; [done|]. naive_solver.
  - split; [done|]. rewrite decide_False; [done|]. naive_solver.
Qed.

(** ** One reset suppresses the links for one load *)

Lemma put_put (name value : string) (jar : Cookies.Jar) :
  Cookies.put name value (Cookies.put name value jar) =
  Cookies.put name value jar.
Proof.
  induction jar as [|[n v] jar IH]; simpl.
  - by rewrite decide_True.
  - case_decide; simpl in *.
    + by rewrite decide_True.
    + rewrite decide_False by done. by rewrite IH.
Qed.

Lemma delete_put_absent (name value : string) (jar : Cookies.Jar) :
  Cookies.lookup name jar = None →
  Cookies.delete name (Cookies.put name value jar) = jar.
Proof.
  unfold Cookies.delete.
  induction jar as [|[n v] jar IH]; simpl.
  - intros _. cbn. by destruct (decide (name ≠ name)).
  - case_decide as Hn; [done|]. intros Hl. simpl in *. cbn.
    destruct (decide (n ≠ name)); [|done]. f_equal. by apply IH.
Qed.

Lemma exec_cookies_plain `{Imports} (evs : list Event) (L : Loop) :
  Call ResetDeepLinks ∉ evs → cookies (mem (exec evs L)) = cookies (mem L).
Proof.
  induction evs as [|ev evs IH] using rev_ind; [done|]. intros Hn.
  apply not_elem_of_app in Hn as [Hevs Hev].
  rewrite exec_snoc, step_cookies, <- IH by done.
  destruct ev as [|[]| | |]; try done.
  exfalso. apply Hev. by left.
Qed.

Lemma exec_cookies_set `{Imports} (evs : list Event) (L : Loop)
    (jar : Cookies.Jar) :
  cookies (mem L) = Cookies.put sentinel "true" jar →
  cookies (mem (exec evs L)) = Cookies.put sentinel "true" jar.
Proof.
  intros Hc. induction evs as [|ev evs IH] using rev_ind; [done|].
  rewrite exec_snoc, step_cookies, IH.
  destruct ev as [|[]| | |]; try done. apply put_put.
Qed.

(** X3.  In a page where the script finds no sentinel and there is no sentinel
    cookie: after [resetDeepLinks()], however often it is called again before
    the page goes away, the load that follows returns no deep links; and the
    load after that one, if no reset came in between, returns the links of the
    launch arguments again. *)
Theorem suppression_lasts_one_load `{Imports}
    (L : Loop) (before between : list Event) :
  ignoreDeepLinks (cookies (mem L)) = false →
  Cookies.lookup sentinel (cookies (mem L)) = None →
  Call ResetDeepLinks ∉ between →
  let L1 := step (Call ResetDeepLinks) L in
  let L2 := reattach (exec before L1) in
  let L3 := reattach (exec between L2) in
  deepLinks (mem L2) = []
  ∧ cookies (mem L2) = cookies (mem L)
  ∧ deepLinks (mem L3) =
    default [] (decodeRendererArg "deepLinks" (argv (mem L))).
Proof.
  intros Htest Habsent Hplain L1 L2 L3.
  assert (Hset : cookies (mem (exec before L1)) =
                 Cookies.put sentinel "true" (cookies (mem L))).
  { apply exec_cookies_set. subst L1. by rewrite step_cookies. }
  assert (Hc2 : cookies (mem L2) = cookies (mem L)).
  { subst L2. simpl. rewrite assign_clear, Hset. by apply delete_put_absent. }
  split_and!; [|done|].
  - subst L2. simpl. rewrite Hset.
    by rewrite (ignoreDeepLinks_sentinel _ (lookup_put _ _ _)).
  - subst L3. simpl. rewrite exec_cookies_plain, Hc2, Htest by done.
    rewrite exec_argv. subst L2. simpl. rewrite exec_argv. subst L1.
    by rewrite step_argv.
Qed.

(** ** Calls from start to end *)

Lemma resume_last (id : nat) (r : Outcome JsVal) (s : Preload)
    (w : list (nat * (JsVal → Task JsVal))) (k : JsVal → Task JsVal)
    (d : list (nat * Outcome JsVal)) (n : nat) :
  id ∉ w.*1 →
  resume id r {| mem := s; waiting := w ++ [(id, k)]; settled := d;
                 promises := n |} =
  match r with
  | Rejected e =>
      {| mem := s; waiting := w; settled := d ++ [(id, Rejected e)];
         promises := n |}
  | Resolved v => park id (run (k v) s) w d n
  end.
Proof. intros Hid. unfold resume. simpl. by rewrite take_snoc. Qed.

(** A call that waits for a last request [settles] as the request does when
    the code after the [await] is [return]. *)
Lemma resume_last_return (id : nat) (r : Outcome JsVal) (s : Preload)
    (w : list (nat * (JsVal → Task JsVal)))
    (d : list (nat * Outcome JsVal)) (n : nat) :
  id ∉ w.*1 →
  resume id r {| mem := s; waiting := w ++ [(id, Ret)]; settled := d;
                 promises := n |} =
  {| mem := s; waiting := w; settled := d ++ [(id, r)]; promises := n |}.
Proof. intros Hid. rewrite resume_last by done. by destruct r. Qed.

(** X4.  The first extension operation from start to end: one round trip for the
    home path, one handler constructed for the extensions directory under
    it and cached, the method called on that handler, and the promise
    settling exactly as the method's promise does. *)
Theorem first_use_end_to_end `{Imports}
    (jar : Cookies.Jar) (args : list string) (evs : list Event)
    (m : Method) (home : string) (r : Outcome JsVal) :
  let L := exec evs (attach jar args) in
  extensionHandler (mem L) = None →
  let id := promises L in
  let h := length (constructed (mem L)) in
  let L3 := exec [Call (extensionOp m); Answer id (Resolved (VStr home));
                  Answer id r] L in
  effects (mem L3) =
    effects (mem L) ++
    [Requested (Invoke "getHomePath" []); Requested (OnHandler h m)]
  ∧ constructed (mem L3) =
    constructed (mem L) ++ [pathJoin [home; ".lichtblick-suite"; "extensions"]]
  ∧ extensionHandler (mem L3) = Some h
  ∧ settled L3 = settled L ++ [(id, r)]
  ∧ waiting L3 = waiting L.
Proof.
  intros L Hslot id h L3.
  pose proof (exec_numbered jar args evs) as Hn. fold L in Hn.
  apply numbered_fresh in Hn. fold id in Hn. clearbody L.
  destruct (run_extensionOp_absent m (mem L) Hslot) as (t & Hop & Hrun).
  assert (HL3 : L3 =
    {| mem := with_effect (Requested (OnHandler h m))
                (with_extensionHandler (Some h)
                   (with_constructed
                      (pathJoin [home; ".lichtblick-suite"; "extensions"])
                      (with_effect (Requested (Invoke "getHomePath" []))
                         (mem L))));
       waiting := waiting L; settled := settled L ++ [(id, r)];
       promises := S id |}).
  { subst L3. rewrite !exec_cons. unfold step at 3. rewrite Hop.
    unfold start, park. simpl mem. rewrite Hrun. simpl.
    rewrite resume_last by done. rewrite run_pending_extensionOp.
    unfold park. simpl. by rewrite resume_last_return by done. }
  rewrite HL3. simpl. by rewrite <- app_assoc.
Qed.

(** X5.  Once a handler is cached, extension operations called one after the
    other all go to that handler: no round trip for the home path, nothing
    constructed, the slot unchanged. *)
Theorem cached_handler_is_reused `{Imports} (ms : list Method) (L : Loop)
    (h : nat) :
  extensionHandler (mem L) = Some h →
  let L' := exec (extension_calls ms) L in
  effects (mem L') =
    effects (mem L) ++ ((λ m, Requested (OnHandler h m)) <$> ms)
  ∧ constructed (mem L') = constructed (mem L)
  ∧ extensionHandler (mem L') = Some h.
Proof.
  revert L. induction ms as [|m ms IH]; intros L Hslot.
  - simpl. by rewrite app_nil_r.
  - unfold extension_calls. rewrite fmap_cons, exec_cons.
    destruct (run_extensionOp_cached m (mem L) h Hslot) as (t & Hop & Hrun).
    assert (Hmem : mem (step (Call (extensionOp m)) L) =
                   with_effect (Requested (OnHandler h m)) (mem L)).
    { unfold step. rewrite Hop. unfold start. rewrite park_mem. simpl.
      by rewrite Hrun. }
    destruct (IH (step (Call (extensionOp m)) L)) as (He & Hc & Hs).
    { by rewrite Hmem. }
    cbv zeta. fold (extension_calls ms). rewrite He, Hc, Hs, Hmem. simpl.
    by rewrite <- app_assoc.
Qed.

(** X7.  What the plain [invoke] operations resolve to: [setRepresentedFilename],
    [updateNativeColorScheme] and [updateLanguage] to [undefined] whatever
    the host answers, [getCLIFlags] to the host's answer. *)
Theorem invoke_results `{Imports}
    (jar : Cookies.Jar) (args : list string) (evs : list Event)
    (path v : JsVal) :
  let L := exec evs (attach jar args) in
  let id := promises L in
  Forall (λ op, settled (exec [Call op; Answer id (Resolved v)] L) =
                settled L ++ [(id, Resolved VUndefined)])
    [SetRepresentedFilename path; UpdateNativeColorScheme; UpdateLanguage]
  ∧ settled (exec [Call GetCLIFlags; Answer id (Resolved v)] L) =
    settled L ++ [(id, Resolved v)].
Proof.
  intros L id.
  pose proof (exec_numbered jar args evs) as Hn. fold L in Hn.
  apply numbered_fresh in Hn. fold id in Hn. clearbody L.
  split; [repeat constructor|];
    rewrite !exec_cons; simpl; unfold start, park; simpl;
    by rewrite resume_last by done.
Qed.

(** X8.  [fetchLayouts] from start to end: it asks the host for the home path on
    every call, hands the layouts directory under it to the loader, and its
    promise settles as the loader's does; the extension handler is not
    involved. *)
Theorem fetchLayouts_end_to_end `{Imports}
    (jar : Cookies.Jar) (args : list string) (evs : list Event)
    (home : string) (r : Outcome JsVal) :
  let L := exec evs (attach jar args) in
  let id := promises L in
  let L3 := exec [Call FetchLayouts; Answer id (Resolved (VStr home));
                  Answer id r] L in
  effects (mem L3) =
    effects (mem L) ++
    [Requested (Invoke "getHomePath" []);
     Requested (Layouts (pathJoin [home; ".lichtblick-suite"; "layouts"]))]
  ∧ settled L3 = settled L ++ [(id, r)]
  ∧ waiting L3 = waiting L
  ∧ extensionHandler (mem L3) = extensionHandler (mem L)
  ∧ constructed (mem L3) = constructed (mem L).
Proof.
  intros L id L3.
  pose proof (exec_numbered jar args evs) as Hn. fold L in Hn.
  apply numbered_fresh in Hn. fold id in Hn. clearbody L.
  subst L3. rewrite !exec_cons. simpl. unfold start, park. simpl.
  rewrite resume_last by done. simpl. unfold park. simpl.
  rewrite resume_last_return by done. simpl.
  by rewrite <- app_assoc.
Qed.

(** ** The cached handler is the one constructed last *)

Lemma tidy_bind {A B : Type} (t : Task A) (f : A → Task B) :
  tidy t → (∀ a, tidy (f a)) → tidy (bind t f).
Proof.
  intros Ht Hf. induction Ht as [a|e|k _ IH|dir k _ IH|r k _ IH]; simpl.
  - apply Hf.
  - constructor.
  - constructor. apply IH.
  - apply (tidy_Construct dir (λ h, bind (k h) f)). apply IH.
  - constructor. apply IH.
Qed.

Lemma tidy_cached_or_ask `{Imports} (current : option nat) :
  tidy (match current with
        | Some _ => GetHandler Ret
        | None => Await (Invoke "getHomePath" []) after_getHomePath
        end).
Proof.
  destruct current as [h|].
  - repeat constructor.
  - constructor. intros v. unfold after_getHomePath.
    destruct (as_string v); [|constructor].
    apply (tidy_Construct _ (λ _, GetHandler Ret)). repeat constructor.
Qed.

Lemma tidy_on_handler (handler : option nat) (m : Method) :
  tidy (on_handler handler m).
Proof. destruct handler; repeat constructor. Qed.

(** No function of the bridge writes the slot except to cache the handler
    it has just constructed. *)
Lemma tidy_desktopBridge `{Imports} (op : Op) (s : Preload) (t : Task JsVal) :
  (desktopBridge op s).2 = Promise t → tidy t.
Proof.
  destruct op; simpl; intros [= <-]; try (repeat constructor; done).
  - constructor. intros v. destruct (as_string v); repeat constructor.
  - constructor. intros h. apply tidy_bind;
      [apply tidy_cached_or_ask | intros; apply tidy_on_handler].
  - constructor. intros h. apply tidy_bind;
      [apply tidy_cached_or_ask | intros; apply tidy_on_handler].
  - constructor. intros h. apply tidy_bind;
      [apply tidy_cached_or_ask | intros; apply tidy_on_handler].
  - constructor. intros h. apply tidy_bind;
      [apply tidy_cached_or_ask | intros; apply tidy_on_handler].
Qed.

Lemma desktopBridge_handler `{Imports} (op : Op) (s : Preload) :
  extensionHandler (desktopBridge op s).1 = extensionHandler s
  ∧ constructed (desktopBridge op s).1 = constructed s.
Proof. by destruct op. Qed.

Lemma run_tidy {A : Type} (t : Task A) (s : Preload) :
  tidy t → extensionHandler s = last_constructed s →
  extensionHandler (run t s).1 = last_constructed (run t s).1
  ∧ match (run t s).2 with
    | Blocked k => ∀ v, tidy (k v)
    | Settled _ => True
    end.
Proof.
  intros Ht. revert s.
  induction Ht as [a|e|k _ IH|dir k _ IH|r k Hk _]; intros s Hs; simpl;
    try done.
  - by apply IH.
  - apply IH. unfold last_constructed. simpl.
    rewrite length_app. simpl. by rewrite Nat.add_1_r.
Qed.

Lemma take_elem (id : nat) (w rest : list (nat * (JsVal → Task JsVal)))
    (k : JsVal → Task JsVal) :
  take id w = Some (k, rest) → (id, k) ∈ w ∧ ∀ x, x ∈ rest → x ∈ w.
Proof.
  revert rest. induction w as [|[i k'] w IH]; intros rest; simpl; [done|].
  case_decide as Hi.
  - intros [= <- <-]. subst. split; [by left | intros x Hx; by right].
  - destruct (take id w) as [[k'' rest']|]; [|done].
    intros [= <- <-]. destruct (IH rest' eq_refl) as [Hin Hsub].
    split; [by right|]. intros x Hx.
    apply elem_of_cons in Hx as [->|Hx]; [by left | right; by apply Hsub].
Qed.

Lemma park_in_step (id : nat) (t : Task JsVal) (s : Preload)
    (w : list (nat * (JsVal → Task JsVal)))
    (d : list (nat * Outcome JsVal)) (n : nat) :
  tidy t → extensionHandler s = last_constructed s →
  (∀ i k, (i, k) ∈ w → ∀ v, tidy (k v)) →
  in_step (park id (run t s) w d n).
Proof.
  intros Ht Hs Hw. destruct (run_tidy t s Ht Hs) as [Hs' Hk].
  unfold park, in_step. destruct (run t s).2 as [o|k]; simpl.
  - done.
  - split; [done|]. intros i k' Hin.
    apply elem_of_app in Hin as [Hin|Hin]; [by apply (Hw i)|].
    apply list_elem_of_singleton in Hin as [= -> ->]. done.
Qed.

Lemma step_in_step `{Imports} (ev : Event) (L : Loop) :
  in_step L → in_step (step ev L).
Proof.
  intros [Hs Hw]. destruct ev as [channel|op|eventName handler|c|id r]; simpl.
  - split; [|done]. simpl. by rewrite emit_flag.
  - destruct (desktopBridge_handler op (mem L)) as [Hh Hc].
    destruct (desktopBridge op (mem L)) as [s ret] eqn:Hop. simpl in Hh, Hc.
    assert (Hs' : extensionHandler s = last_constructed s).
    { unfold last_constructed. by rewrite Hh, Hc. }
    destruct ret as [v|c|t]; try done.
    apply park_in_step; try done.
    apply (tidy_desktopBridge op (mem L)). by rewrite Hop.
  - done.
  - by destruct c.
  - unfold resume.
    destruct (take id (waiting L)) as [[k rest]|] eqn:Ht; [|done].
    apply take_elem in Ht as [Hk Hrest]. destruct r as [v|e].
    + apply park_in_step; try done; [by apply (Hw id)|].
      intros i k' Hin. apply (Hw i), Hrest, Hin.
    + split; [done|]. simpl. intros i k' Hin. apply (Hw i), Hrest, Hin.
Qed.

Lemma exec_in_step `{Imports} (jar : Cookies.Jar) (args : list string)
    (evs : list Event) :
  in_step (exec evs (attach jar args)).
Proof.
  induction evs as [|ev evs IH] using rev_ind.
  - split; [done|]. intros id k Hin. by apply elem_of_nil in Hin.
  - rewrite exec_snoc. by apply step_in_step.
Qed.

(** X6.  At every point of every run the handler slot holds the handler that was
    constructed last, and is empty exactly as long as none was constructed:
    a cached handler is never dropped, and never one that does not exist. *)
Theorem cached_handler_is_latest `{Imports}
    (jar : Cookies.Jar) (args : list string) (evs : list Event) :
  let s := mem (exec evs (attach jar args)) in
  extensionHandler s =
  match length (constructed s) with
  | 0 => None
  | S n => Some n
  end.
Proof. apply exec_in_step. Qed.

(** ** Network interfaces, in full *)

Lemma at_name_unique (ifaces : Network.Interfaces) (name : string)
    (v : option (list Network.Info)) :
  NoDup ifaces.*1 → (name, v) ∈ ifaces → Network.at_name name ifaces = v.
Proof.
  induction ifaces as [|[n w] ifaces IH]; intros Hnd Hin.
  - by apply elem_of_nil in Hin.
  - simpl in *. apply NoDup_cons in Hnd as [Hn Hnd].
    apply elem_of_cons in Hin as [[= -> ->]|Hin].
    + by rewrite decide_True.
    + rewrite decide_False; [by apply IH|].
      intros ->. apply Hn. apply list_elem_of_fmap. by exists (name, v).
Qed.

Lemma entries_by_name (ifaces l : Network.Interfaces) :
  (∀ nv, nv ∈ l → Network.at_name nv.1 ifaces = nv.2) →
  (l.*1 ≫= λ name,
     match Network.at_name name ifaces with
     | None => []
     | Some iface => Network.entry name <$> iface
     end) =
  l ≫= λ nv,
    match nv.2 with
    | Some iface => Network.entry nv.1 <$> iface
    | None => []
    end.
Proof.
  induction l as [|[n v] l IH]; intros Hall; [done|].
  rewrite fmap_cons, !bind_cons.
  rewrite IH by (intros nv Hnv; apply Hall; by right).
  f_equal. pose proof (Hall (n, v)) as Hnv. simpl in *.
  rewrite Hnv by by left. by destruct v.
Qed.

(** X9.  With the names of the host's object distinct, as the keys of an object
    are, the result has the entries of every name that has a list, name after
    name in the order of the object and address after address in the order of
    the list, and nothing else. *)
Theorem getNetworkInterfaces_in_order (ifaces : Network.Interfaces) :
  NoDup ifaces.*1 →
  Network.getNetworkInterfaces ifaces =
  ifaces ≫= λ nv,
    match nv.2 with
    | Some iface => Network.entry nv.1 <$> iface
    | None => []
    end.
Proof.
  intros Hnd. unfold Network.getNetworkInterfaces.
  rewrite getNetworkInterfaces_names, app_nil_l.
  apply entries_by_name. intros [n v] Hin. by apply at_name_unique.
Qed.

(** X10.  An entry has the key [name] followed by the keys of the host's record,
    and carries the address, the netmask, the family, the MAC address, the
    internal flag and, for IPv6, the scope id as the host reported them. *)
Theorem entry_keeps_host_fields (name : string) (info : Network.Info) :
  let e := Network.entry name info in
  e.*1 = "name" :: (Network.props info).*1
  ∧ Network.get "address" e = VStr (Network.address info)
  ∧ Network.get "netmask" e = VStr (Network.netmask info)
  ∧ Network.get "family" e = Network.get "family" (Network.props info)
  ∧ Network.get "mac" e = VStr (Network.mac info)
  ∧ Network.get "internal" e = VBool (Network.internal info)
  ∧ Network.get "scopeid" e =
    match Network.family info with
    | Network.IPv4 => VUndefined
    | Network.IPv6 scopeid => VNum scopeid
    end.
Proof. by destruct info as [? ? [|?] ? ? [?|]]. Qed.

(* ================================================================== *)
(** * Properties of the workspace *)

(** ** Files that can be dropped *)

Lemma allowedDropExtensions_from `{WorkspaceImports}
    (sources : list Workspace.DataSource) (init : list string) (ext : string) :
  ext ∈ foldl (λ extensions source,
                 if decide (Workspace.source_type source = "file") then
                   match Workspace.supportedFileTypes source with
                   | Some types => extensions ++ types
                   | None => extensions
                   end
                 else extensions) init sources ↔
  ext ∈ init ∨
  ∃ source types,
    source ∈ sources ∧ Workspace.source_type source = "file"
    ∧ Workspace.supportedFileTypes source = Some types ∧ ext ∈ types.
Proof.
  revert init. induction sources as [|source sources IH]; intros init; simpl.
  - split; [by left|]. intros [Hin|(source & types & Hs & _)]; [done|].
    by apply elem_of_nil in Hs.
  - rewrite IH. split.
    + intros [Hin|(s & types & Hs & Hf & Ht & He)].
      * case_decide as Hfile; [|by left].
        destruct (Workspace.supportedFileTypes source) as [types|] eqn:Hty;
          [|by left].
        apply elem_of_app in Hin as [Hin|Hin]; [by left|].
        right. exists source, types. split_and!; try done. by left.
      * right. exists s, types. split_and!; try done. by right.
    + intros [Hin|(s & types & Hs & Hf & Ht & He)].
      * left. case_decide; [|done].
        destruct (Workspace.supportedFileTypes source); [|done].
        apply elem_of_app. by left.
      * apply elem_of_cons in Hs as [->|Hs].
        -- left. rewrite decide_True, Ht by done. apply elem_of_app. by right.
        -- right. by exists s, types.
Qed.

(** X11.  The extensions accepted for a drop are the extension of extension
    packages, the extension of layouts, and the file types of the sources of
    type "file" that list any; a source of another type adds nothing, and
    the first two are accepted also when there is no source. *)
Theorem allowedDropExtensions_accepts `{WorkspaceImports}
    (availableSources : list Workspace.DataSource) (ext : string) :
  ext ∈ Workspace.allowedDropExtensions availableSources ↔
  ext = FOXE ∨ ext = JSON ∨
  ∃ source types,
    source ∈ availableSources ∧ Workspace.source_type source = "file"
    ∧ Workspace.supportedFileTypes source = Some types ∧ ext ∈ types.
Proof.
  unfold Workspace.allowedDropExtensions.
  rewrite allowedDropExtensions_from, !elem_of_cons, elem_of_nil.
  naive_solver.
Qed.

(** ** Sidebar items *)

Lemma get_set {V : Type} (key : string) (value : V) (m : list (string * V)) :
  Workspace.get key (Workspace.set key value m) = Some value.
Proof.
  induction m as [|[k v] m IH]; simpl.
  - by rewrite decide_True.
  - case_decide; simpl; [by rewrite decide_True | by rewrite decide_False].
Qed.

Lemma keys_set {V : Type} (key : string) (value : V) (m : list (string * V))
    (k : string) :
  k ∈ (Workspace.set key value m).*1 ↔ k = key ∨ k ∈ m.*1.
Proof.
  induction m as [|[k' v] m IH]; simpl.
  - rewrite list_elem_of_singleton, elem_of_nil. naive_solver.
  - case_decide; simpl; rewrite !elem_of_cons; [|rewrite IH]; naive_solver.
Qed.

Lemma NoDup_set {V : Type} (key : string) (value : V) (m : list (string * V)) :
  NoDup m.*1 → NoDup (Workspace.set key value m).*1.
Proof.
  induction m as [|[k v] m IH]; simpl; intros Hnd.
  - apply NoDup_singleton.
  - apply NoDup_cons in Hnd as [Hk Hnd]. case_decide; simpl.
    + by apply NoDup_cons.
    + apply NoDup_cons. split; [|by apply IH].
      rewrite keys_set. naive_solver.
Qed.

(** The loop of lines 344-348 keeps the keys distinct and adds only keys of
    items that pass the check. *)
Lemma injected_items `{WorkspaceImports}
    (items m : list (string * Workspace.SidebarItem)) :
  NoDup m.*1 →
  let m' := foldl (λ bottomItems item,
                     if Workspace.isInjectedSidebarItem item
                     then Workspace.set item.1 item.2 bottomItems
                     else bottomItems) m items in
  NoDup m'.*1
  ∧ ∀ k, k ∈ m'.*1 →
         k ∈ m.*1 ∨
         ∃ item, item ∈ items ∧ item.1 = k
                 ∧ Workspace.isInjectedSidebarItem item = true.
Proof.
  revert m. induction items as [|item items IH]; intros m Hnd; simpl.
  - split; [done|]. intros k Hk. by left.
  - destruct (Workspace.isInjectedSidebarItem item) eqn:Hinj.
    + destruct (IH (Workspace.set item.1 item.2 m) (NoDup_set _ _ _ Hnd))
        as [Hnd' Hkeys].
      split; [done|]. intros k Hk.
      destruct (Hkeys k Hk) as [Hm|(item' & Hin & Hk' & Hi)].
      * apply keys_set in Hm as [->|Hm]; [|by left].
        right. exists item. split_and!; try done. by left.
      * right. exists item'. split_and!; try done. by right.
    + destruct (IH m Hnd) as [Hnd' Hkeys]. split; [done|]. intros k Hk.
      destruct (Hkeys k Hk) as [Hm|(item' & Hin & Hk' & Hi)]; [by left|].
      right. exists item'. split_and!; try done. by right.
Qed.

(** X12.  Without the new top navigation, the bottom items have distinct keys;
    "app-settings" is always there and always the built-in settings item,
    whatever the app injects under that key; and every other key is
    "account", shown only when signing in is supported, or the key of an
    injected item that passes [isInjectedSidebarItem]. *)
Theorem bottomItems_settings_builtin `{WorkspaceImports}
    (i : Workspace.SidebarInputs) :
  Workspace.enableNewTopNav i = false →
  Workspace.get "app-settings" (Workspace.bottomItems i) =
    Some Workspace.appSettings
  ∧ NoDup (Workspace.bottomItems i).*1
  ∧ ∀ k, k ∈ (Workspace.bottomItems i).*1 →
         k = "app-settings"
         ∨ (k = "account" ∧ Workspace.supportsAccountSettings i = true)
         ∨ ∃ item, item ∈ default [] (Workspace.appContextSidebarItems i)
                   ∧ item.1 = k
                   ∧ Workspace.isInjectedSidebarItem item = true.
Proof.
  intros Hnav. unfold Workspace.bottomItems. rewrite Hnav.
  set (m := if Workspace.supportsAccountSettings i
            then Workspace.set "account" (Workspace.account i) []
            else []).
  assert (Hm : NoDup m.*1).
  { subst m. destruct (Workspace.supportsAccountSettings i); simpl.
    - apply NoDup_singleton.
    - apply NoDup_nil_2. }
  destruct (injected_items (default [] (Workspace.appContextSidebarItems i))
              m Hm) as [Hnd Hkeys].
  cbv zeta in Hnd, Hkeys. split_and!.
  - apply get_set.
  - by apply NoDup_set.
  - intros k Hk. apply keys_set in Hk as [->|Hk]; [by left|].
    destruct (Hkeys k Hk) as [Hin|Hinj]; [|by right; right].
    right. left. subst m.
    destruct (Workspace.supportsAccountSettings i); simpl in Hin.
    + apply list_elem_of_singleton in Hin. done.
    + by apply elem_of_nil in Hin.
Qed.

Lemma badge_count (alerts : list nat) :
  (if decide (0 < length alerts) then Some (length alerts) else None) =
  match alerts with
  | [] => None
  | _ => Some (length alerts)
  end.
Proof.
  destruct alerts; [done|]. case_decide as Hn; [done|]. simpl in Hn. lia.
Qed.

(** X13.  The keys of the top items, in order, and the badge of the first: with
    the new top navigation only the data source and the panel settings are
    left (and no bottom item at all); the log settings come last when they
    are enabled; the data source shows the number of alerts when there are
    any. *)
Theorem topItems_keys `{WorkspaceImports} (i : Workspace.SidebarInputs) :
  (Workspace.topItems i).*1 =
    (if Workspace.enableNewTopNav i then ["connection"; "panel-settings"]
     else ["connection"; "layouts"; "add-panel"; "panel-settings";
           "variables"; "extensions"])
    ++ (if Workspace.enableStudioLogsSidebar i then ["logs-settings"] else [])
  ∧ (Workspace.enableNewTopNav i = true → Workspace.bottomItems i = [])
  ∧ Workspace.badge <$> Workspace.get "connection" (Workspace.topItems i) =
    Some (match Workspace.playerAlerts i with
          | Some [] | None => None
          | Some alerts => Some (length alerts)
          end).
Proof.
  destruct i as [alerts nav logs browser acc user injected].
  split_and!.
  - by destruct nav, logs.
  - simpl. by intros ->.
  - destruct alerts as [alerts|]; [|by destruct nav, logs].
    unfold Workspace.topItems. cbn [Workspace.playerAlerts].
    rewrite badge_count. by destruct nav, logs, alerts.
Qed.

(** ** Applying the launch URL *)

Lemma loadSourceFromUrl_runs_idle (n : nat) (args : Workspace.SourceArgs) :
  Workspace.loadSourceFromUrl args = (args, []) →
  Workspace.loadSourceFromUrl_runs n args = [].
Proof.
  intros Hidle. induction n as [|n IH]; [done|]. simpl. by rewrite Hidle.
Qed.

(** X14.  However often the effect runs, the data source of the launch URL is
    selected once, in the first run, together with the event of its
    parameters; and not at all when the URL names no source, names the empty
    one, or there is no URL. *)
Theorem url_source_applied_once (targetUrlState : option Workspace.AppURLState)
    (n : nat) :
  Workspace.loadSourceFromUrl_runs (S n)
    (Workspace.initialSourceArgs targetUrlState) =
  match targetUrlState with
  | Some u =>
      match Workspace.ds u with
      | Some id =>
          if decide (id = "") then []
          else [Workspace.SelectSource id (Workspace.dsParams u);
                Workspace.SelectEvent
                  (Workspace.dsParams u ≫= λ p, p !! "eventId")]
      | None => []
      end
  | None => []
  end.
Proof.
  destruct targetUrlState as [[[id|] params t]|]; simpl;
    try (by rewrite loadSourceFromUrl_runs_idle).
  case_decide as Hid; simpl.
  - apply loadSourceFromUrl_runs_idle. simpl. by rewrite decide_True.
  - by rewrite loadSourceFromUrl_runs_idle.
Qed.

Lemma seekToUrlTime_runs_idle (renders : list (Workspace.PlayerPresence * bool))
    (unappliedTime : Workspace.UnappliedTime) :
  (∀ t, unappliedTime ≠ Some (Some t)) →
  Workspace.seekToUrlTime_runs renders unappliedTime = [].
Proof.
  intros Hidle. induction renders as [|[presence seek] renders IH]; [done|].
  simpl. destruct unappliedTime as [[t|]|]; try done. by destruct (Hidle t).
Qed.

(** X15.  Over any sequence of renders, the time of the launch URL is sought
    once if some render has a present player that can seek, and never
    otherwise; without a time in the URL nothing is sought. *)
Theorem url_time_sought_once (targetUrlState : option Workspace.AppURLState)
    (renders : list (Workspace.PlayerPresence * bool)) :
  Workspace.seekToUrlTime_runs renders (Workspace.initialTime targetUrlState) =
  match targetUrlState with
  | Some u =>
      match Workspace.time u with
      | Some t => if existsb Workspace.ready renders then [Workspace.Seek t]
                  else []
      | None => []
      end
  | None => []
  end.
Proof.
  destruct targetUrlState as [[id params [t|]]|]; simpl;
    try (by apply seekToUrlTime_runs_idle).
  induction renders as [|[presence seek] renders IH]; [done|].
  simpl. unfold Workspace.ready at 1. simpl.
  destruct seek; simpl.
  - destruct (decide (presence = Workspace.PRESENT)) as [->|Hp].
    + rewrite decide_False by naive_solver. simpl.
      by rewrite seekToUrlTime_runs_idle.
    + rewrite decide_True by done. rewrite bool_decide_eq_false_2 by done.
      simpl. apply IH.
  - rewrite andb_false_r. simpl. apply IH.
Qed.


(* ================================================================== *)
(** * Further examples *)

(** A reset, a second reset and an event before the page goes away; then a
    load without links; then, after a plain reload, the links again. *)
Lemma suppression_lasts_one_load_example :
  let L := attach (H := posix) [] ["app"; "lichtblick://open?ds=file"] in
  let L1 := step (H := posix) (Call ResetDeepLinks) L in
  let L2 := reattach (H := posix)
              (exec (H := posix) [Call ResetDeepLinks; Push "maximize"] L1) in
  let L3 := reattach (H := posix) (exec (H := posix) [Call ReloadWindow] L2) in
  deepLinks (mem L) = ["lichtblick://open?ds=file"]
  ∧ deepLinks (mem L2) = []
  ∧ deepLinks (mem L3) = ["lichtblick://open?ds=file"].
Proof.
  intros L L1 L2 L3. split; [reflexivity|].
  destruct (suppression_lasts_one_load (H := posix) L
              [Call ResetDeepLinks; Push "maximize"] [Call ReloadWindow])
    as (Hnone & _ & Hagain).
  - reflexivity.
  - reflexivity.
  - intros Hin. apply elem_of_cons in Hin as [Heq|Hin]; [discriminate|].
    by apply elem_of_nil in Hin.
  - split; [exact Hnone | exact Hagain].
Defined.

(** The first [getExtensions()] of a load, answered by the host and then
    by the handler. *)
Lemma first_use_end_to_end_example :
  let L3 := exec (H := posix)
              [Call GetExtensions; Answer 0 (Resolved (VStr "/home/u"));
               Answer 0 (Resolved (VStrs ["a"; "b"]))]
              (attach (H := posix) [] []) in
  effects (mem L3) =
    [Requested (Invoke "getHomePath" []); Requested (OnHandler 0 List)]
  ∧ constructed (mem L3) = ["/home/u/.lichtblick-suite/extensions"]
  ∧ extensionHandler (mem L3) = Some 0
  ∧ settled L3 = [(0, Resolved (VStrs ["a"; "b"]))]
  ∧ waiting L3 = [].
Proof.
  exact (first_use_end_to_end (H := posix) [] [] [] List "/home/u"
           (Resolved (VStrs ["a"; "b"])) eq_refl).
Defined.

(** Two more operations after the first has its handler. *)
Lemma cached_handler_is_reused_example :
  let L := exec (H := posix)
             [Call GetExtensions; Answer 0 (Resolved (VStr "/home/u"))]
             (attach (H := posix) [] []) in
  let L' := exec (H := posix)
              (extension_calls [Load "a"; Uninstall "b"]) L in
  effects (mem L') =
    [Requested (Invoke "getHomePath" []); Requested (OnHandler 0 List);
     Requested (OnHandler 0 (Load "a")); Requested (OnHandler 0 (Uninstall "b"))]
  ∧ constructed (mem L') = ["/home/u/.lichtblick-suite/extensions"]
  ∧ extensionHandler (mem L') = Some 0.
Proof.
  intros L.
  exact (cached_handler_is_reused (H := posix) [Load "a"; Uninstall "b"] L 0
           eq_refl).
Defined.

(** Two interfaces with addresses around one without. *)
Lemma getNetworkInterfaces_in_order_example :
  let a := {| Network.address := "127.0.0.1"; Network.netmask := "255.0.0.0";
              Network.family := Network.IPv4; Network.mac := "00:00:00:00:00:00";
              Network.internal := true; Network.cidr := Some "127.0.0.1/8" |} in
  let b := {| Network.address := "fe80::1"; Network.netmask := "ffff::";
              Network.family := Network.IPv6 2; Network.mac := "aa:bb:cc:dd:ee:ff";
              Network.internal := false; Network.cidr := None |} in
  let ifaces := [("lo", Some [a]); ("tun0", None); ("eth0", Some [b; a])] in
  Network.getNetworkInterfaces ifaces =
  [Network.entry "lo" a; Network.entry "eth0" b; Network.entry "eth0" a].
Proof.
  intros a b ifaces.
  refine (getNetworkInterfaces_in_order ifaces _).
  repeat (apply NoDup_cons; split; [set_solver|]). apply NoDup_nil_2.
Defined.

(** The old navigation, signed out, with an injected help item and an
    injected item that tries to take the place of the settings. *)
Lemma bottomItems_settings_builtin_example :
  let help := {| Workspace.iconName := Some "QuestionCircle";
                 Workspace.title := "Help"; Workspace.component := None;
                 Workspace.badge := None |} in
  let mine := {| Workspace.iconName := Some "Blockhead";
                 Workspace.title := "Mine"; Workspace.component := None;
                 Workspace.badge := None |} in
  let i := {| Workspace.playerAlerts := None;
              Workspace.enableNewTopNav := false;
              Workspace.enableStudioLogsSidebar := false;
              Workspace.AppContextLayoutBrowser := None;
              Workspace.supportsAccountSettings := true;
              Workspace.currentUser := None;
              Workspace.appContextSidebarItems :=
                Some [("app-settings", mine); ("help", help)] |} in
  (Workspace.bottomItems (H := sample) i).*1 = ["account"; "app-settings"; "help"]
  ∧ Workspace.get "app-settings" (Workspace.bottomItems (H := sample) i) =
    Some Workspace.appSettings.
Proof.
  intros help mine i. split; [reflexivity|].
  exact (proj1 (bottomItems_settings_builtin (H := sample) i eq_refl)).
Defined.
